(** * ZAM: the melody step sequencer

    A shallow embedding of the piano-roll editor (components/PianoRoll.tsx),
    the melody tool view (components/MonoMelody.tsx), the audio service
    (services/audio.ts) and the constants they share (constants.ts, types.ts),
    followed by the properties of the timeline model, the gesture handlers and
    the playback callbacks.

    Conventions of the embedding:
    - a timeline slot, [string | null] in the source, is an [option string];
      [None] stands for both [null] and [undefined] (a read out of range),
      which the source never tells apart: both are falsy and both differ from
      every string;
    - an array is a [list]; reading is [js_get], writing is [js_set], which
      grows the array as a JavaScript store does;
    - every handler is a function from the component state (props and hooks
      together) and the event to the next state and the calls it made to its
      collaborators, in order.  The state a handler is given is the one of
      the render whose closure it is; the state it returns is the one of the
      next render, after the updates it queued. *)

From Stdlib Require Import ZArith Lia Ascii String.
From stdpp Require Import base list strings.

Open Scope string_scope.
Open Scope list_scope.

(** ** constants.ts *)

(** [STEPS_PER_BAR] and [NUM_BARS] are module constants (8 and 4 in the
    source).  The development is parametric in them, so that the same
    definitions run on the 8-step timelines of the documented scenarios.
    Steps are divided by [STEPS_PER_BAR], which is kept positive. *)
Class Constants := {
  STEPS_PER_BAR : nat;
  NUM_BARS : nat;
  STEPS_PER_BAR_pos : 0 < STEPS_PER_BAR
}.

Definition TOTAL_STEPS `{Constants} : nat := STEPS_PER_BAR * NUM_BARS.

Definition SUSTAIN_TOKEN : string := "HOLD".

Definition SCALE_NOTES : list string := ["C"; "D"; "E"; "F"; "G"; "A"; "B"].

(** The configuration of constants.ts. *)
Definition source_constants : Constants := {| STEPS_PER_BAR := 8; NUM_BARS := 4; STEPS_PER_BAR_pos := Nat.lt_0_succ 7 |}.

(** One bar of eight steps: the grid of the documented 8-step scenarios. *)
Definition one_bar_constants : Constants := {| STEPS_PER_BAR := 8; NUM_BARS := 1; STEPS_PER_BAR_pos := Nat.lt_0_succ 7 |}.

(** ** types.ts *)

Inductive ChordType := major | minor | diminished.

Record Chord := {
  chord_id : string;
  roman : string;
  name : string;
  mood : string;
  notes : list string;
  root : string;
  type : ChordType;
  color : string
}.

Abbreviation Token := (option string).
Abbreviation Melody := (list (option string)).
Abbreviation Progression := (list Chord).

Inductive NoteMode := chord | scale | chromatic.

(** ** JavaScript values and arrays *)

(** [token === SUSTAIN_TOKEN] *)
Definition is_sustain (t : Token) : bool :=
  match t with
  | Some s => String.eqb s SUSTAIN_TOKEN
  | None => false
  end.

(** Truthiness of a [string | null]: [null] and the empty string are falsy. *)
Definition truthy (t : Token) : bool :=
  match t with
  | Some s => negb (String.eqb s "")
  | None => false
  end.

(** [a === b] on [string | null] values. *)
Definition token_eqb (a b : Token) : bool :=
  match a, b with
  | Some x, Some y => String.eqb x y
  | None, None => true
  | _, _ => false
  end.

(** [arr[i]] *)
Definition js_get (arr : Melody) (i : nat) : Token :=
  match arr !! i with
  | Some t => t
  | None => None
  end.

(** [arr[i] = v]: in range the slot is replaced, past the end the array grows
    and the slots in between are holes. *)
Definition js_set (arr : Melody) (i : nat) (v : Token) : Melody :=
  if decide (i < length arr) then <[i := v]> arr
  else arr ++ replicate (i - length arr) None ++ [v].

(** [xs.includes(x)] on an array of strings. *)
Fixpoint includes (xs : list string) (x : string) : bool :=
  match xs with
  | [] => false
  | y :: ys => if String.eqb y x then true else includes ys x
  end.

Definition is_digit (c : ascii) : bool :=
  Nat.leb 48 (nat_of_ascii c) && Nat.leb (nat_of_ascii c) 57.

(** [pitch.replace(/[0-9]/g, '')] *)
Fixpoint strip_digits (s : string) : string :=
  match s with
  | EmptyString => EmptyString
  | String c rest =>
      if is_digit c then strip_digits rest else String c (strip_digits rest)
  end.

(** ** constants.ts, continued: the chord palette *)

Definition COLORS_I := "bg-rose-50 text-rose-600 ring-rose-100".
Definition COLORS_ii := "bg-orange-50 text-orange-600 ring-orange-100".
Definition COLORS_iii := "bg-amber-50 text-amber-600 ring-amber-100".
Definition COLORS_IV := "bg-emerald-50 text-emerald-600 ring-emerald-100".
Definition COLORS_V := "bg-sky-50 text-sky-600 ring-sky-100".
Definition COLORS_vi := "bg-violet-50 text-violet-600 ring-violet-100".
Definition COLORS_vii := "bg-fuchsia-50 text-fuchsia-600 ring-fuchsia-100".

Definition CHORDS_C_MAJOR : list Chord := [
  {| chord_id := "I"; roman := "I"; name := "도 (C)"; mood := "행복해요";
     notes := ["C"; "E"; "G"]; root := "C"; type := major; color := COLORS_I |};
  {| chord_id := "ii"; roman := "ii"; name := "레 (Dm)"; mood := "차분해요";
     notes := ["D"; "F"; "A"]; root := "D"; type := minor; color := COLORS_ii |};
  {| chord_id := "iii"; roman := "iii"; name := "미 (Em)"; mood := "깊어요";
     notes := ["E"; "G"; "B"]; root := "E"; type := minor; color := COLORS_iii |};
  {| chord_id := "IV"; roman := "IV"; name := "파 (F)"; mood := "씩씩해요";
     notes := ["F"; "A"; "C"]; root := "F"; type := major; color := COLORS_IV |};
  {| chord_id := "V"; roman := "V"; name := "솔 (G)"; mood := "신나요";
     notes := ["G"; "B"; "D"]; root := "G"; type := major; color := COLORS_V |};
  {| chord_id := "vi"; roman := "vi"; name := "라 (Am)"; mood := "슬퍼요";
     notes := ["A"; "C"; "E"]; root := "A"; type := minor; color := COLORS_vi |};
  {| chord_id := "vii"; roman := "vii°"; name := "시 (Bdim)"; mood := "긴장돼요";
     notes := ["B"; "D"; "F"]; root := "B"; type := diminished; color := COLORS_vii |}
].

Definition PITCH_ROWS : list string := [
  "B4"; "A#4"; "A4"; "G#4"; "G4"; "F#4"; "F4"; "E4"; "D#4"; "D4"; "C#4"; "C4";
  "B3"; "A#3"; "A3"; "G#3"; "G3"; "F#3"; "F3"; "E3"; "D#3"; "D3"; "C#3"; "C3"
].

(** [CHORDS_C_MAJOR[0], [5], [3], [4]]: I, vi, IV, V. *)
Definition DEFAULT_PROGRESSION : Progression :=
  omap (fun i => CHORDS_C_MAJOR !! i) [0; 5; 3; 4].

(** ** components/PianoRoll.tsx *)

Module PianoRoll.

Inductive DragMode := create | resize.

(** The [dragState] hook, when it is not [null]. *)
Record DragState := {
  isActive : bool;
  startStep : nat;
  pitch : string;
  mode : DragMode;
  hasMoved : bool
}.

(** The [dragMetrics] ref, when it is not [null]: the left edge and the width
    of the first grid cell.  Lengths are whole device units, and the width of
    a cell that received a pointer event is positive. *)
Record Metrics := { startX : Z; stepWidth : positive }.

(** The props [progression], [melody], [noteMode] and the hooks [dragState],
    [dragMetrics].  [currentStep] only takes part in rendering.  [onSetMelody]
    is the parent's [setMelody]: the emitted timeline is the [melody] prop of
    the next render. *)
Record State := {
  progression : Progression;
  melody : Melody;
  noteMode : NoteMode;
  dragState : option DragState;
  dragMetrics : option Metrics
}.

(** A grid cell, as its [data-step] and [data-pitch] attributes. *)
Record Cell := { data_step : nat; data_pitch : string }.

(** What a pointer-down reads from the event and the document:
    [e.target.closest('[data-step]')] and the bounding rectangle of
    [querySelector('[data-step="0"]')]. *)
Record PointerDown := { target : option Cell; firstCell : option Metrics }.

(** What a pointer-move reads: [e.clientX] and the cell of
    [document.elementFromPoint(e.clientX, e.clientY)]. *)
Record PointerMove := { clientX : Z; elementFromPoint : option Cell }.

(** Calls to the collaborators. *)
Inductive Call :=
| onSetMelody (newMelody : Melody)
| previewNote (note : string).

Definition with_dragState (st : State) (d : option DragState) : State :=
  {| progression := progression st; melody := melody st; noteMode := noteMode st;
     dragState := d; dragMetrics := dragMetrics st |}.

Definition with_dragMetrics (st : State) (m : option Metrics) : State :=
  {| progression := progression st; melody := melody st; noteMode := noteMode st;
     dragState := dragState st; dragMetrics := m |}.

Definition with_melody (st : State) (newMelody : Melody) : State :=
  {| progression := progression st; melody := newMelody; noteMode := noteMode st;
     dragState := dragState st; dragMetrics := dragMetrics st |}.

Definition with_hasMoved (d : DragState) (b : bool) : DragState :=
  {| isActive := isActive d; startStep := startStep d; pitch := pitch d;
     mode := mode d; hasMoved := b |}.

Section Component.
Context `{Constants}.

(** The body of the loop of [resolvedMelody], for the [n] indices from [i]. *)
Fixpoint resolve_loop (melody : Melody) (n i : nat) (lastPitch : Token)
    (result : list Token) : list Token :=
  match n with
  | 0 => result
  | S n' =>
      let token := js_get melody i in
      if is_sustain token then
        resolve_loop melody n' (S i) lastPitch (js_set result i lastPitch)
      else if truthy token then
        resolve_loop melody n' (S i) token (js_set result i token)
      else
        resolve_loop melody n' (S i) None (js_set result i None)
  end.

Definition resolvedMelody (melody : Melody) : list Token :=
  resolve_loop melody TOTAL_STEPS 0 None (replicate TOTAL_STEPS None).

Definition isNoteAllowed (noteMode : NoteMode) (progression : Progression)
    (pitch : string) (stepIndex : nat) : bool :=
  match noteMode with
  | chromatic => true
  | scale => includes SCALE_NOTES (strip_digits pitch)
  | chord =>
      let barIndex := stepIndex / STEPS_PER_BAR in
      match progression !! barIndex with
      | None => false
      | Some c => includes (notes c) (strip_digits pitch)
      end
  end.

(** [while (ptr > 0 && melody[ptr] === SUSTAIN_TOKEN) ptr--] *)
Fixpoint walk_back (melody : Melody) (ptr : nat) : nat :=
  match ptr with
  | 0 => 0
  | S ptr' => if is_sustain (js_get melody ptr) then walk_back melody ptr' else ptr
  end.

(** [for (i = ...; i <= step; i++) if (isNoteAllowed(pitch, i)) newMelody[i] =
    SUSTAIN_TOKEN; else break], for the [n] indices from [i]. *)
Fixpoint extend_loop (allowed : nat -> bool) (n i : nat) (newMelody : Melody) : Melody :=
  match n with
  | 0 => newMelody
  | S n' =>
      if allowed i then extend_loop allowed n' (S i) (js_set newMelody i (Some SUSTAIN_TOKEN))
      else newMelody
  end.

(** [for (i = ...; i < TOTAL_STEPS; i++) if (newMelody[i] === SUSTAIN_TOKEN)
    newMelody[i] = null; else break], for the [n] indices from [i].  The
    pointer-move and the pointer-up handlers run this same loop. *)
Fixpoint clear_loop (n i : nat) (newMelody : Melody) : Melody :=
  match n with
  | 0 => newMelody
  | S n' =>
      if is_sustain (js_get newMelody i) then clear_loop n' (S i) (js_set newMelody i None)
      else newMelody
  end.

(** The pointer capture and [preventDefault] calls act on the browser only.
    [containerRef.current] is the element the handlers are mounted on, so it
    is set whenever one of them runs. *)
Definition handleGridPointerDown (st : State) (e : PointerDown) : State * list Call :=
  match target e with
  | None => (st, [])
  | Some cell =>
      let st := with_dragMetrics st (firstCell e) in
      let step := data_step cell in
      let pitch := data_pitch cell in
      let allowed := isNoteAllowed (noteMode st) (progression st) pitch step in
      if negb allowed then (st, [])
      else
        let existingPitch := js_get (resolvedMelody (melody st)) step in
        if token_eqb existingPitch (Some pitch) then
          let startStep := walk_back (melody st) step in
          (with_dragState st
             (Some {| isActive := true; startStep := startStep; pitch := pitch;
                      mode := resize; hasMoved := false |}), [])
        else
          let newMelody := js_set (melody st) step (Some pitch) in
          (with_dragState (with_melody st newMelody)
             (Some {| isActive := true; startStep := step; pitch := pitch;
                      mode := create; hasMoved := false |}),
           [onSetMelody newMelody; previewNote pitch])
  end.

(** The step under the pointer, [-1] when there is none. *)
Definition pointerStep (st : State) (e : PointerMove) : Z :=
  match dragMetrics st with
  | Some m =>
      let relativeX := (clientX e - startX m)%Z in
      let step := (relativeX / Z.pos (stepWidth m))%Z in
      Z.max 0 (Z.min (Z.of_nat TOTAL_STEPS - 1) step)
  | None =>
      match elementFromPoint e with
      | Some cell => Z.of_nat (data_step cell)
      | None => (-1)%Z
      end
  end.

Definition handleGridPointerMove (st : State) (e : PointerMove) : State * list Call :=
  match dragState st with
  | None => (st, [])
  | Some d =>
      if negb (isActive d) then (st, [])
      else
        let step := pointerStep st e in
        if (step =? -1)%Z then (st, [])
        else
          let moved := Some (with_hasMoved d true) in
          if (step <? Z.of_nat (startStep d))%Z then (with_dragState st moved, [])
          else
            let step := Z.to_nat step in
            let allowed := isNoteAllowed (noteMode st) (progression st) (pitch d) in
            let newMelody := js_set (melody st) (startStep d) (Some (pitch d)) in
            let newMelody :=
              extend_loop allowed (S step - S (startStep d)) (S (startStep d)) newMelody in
            let newMelody := clear_loop (TOTAL_STEPS - S step) (S step) newMelody in
            (with_dragState (with_melody st newMelody) moved, [onSetMelody newMelody])
  end.

(** Mounted on both [onPointerUp] and [onPointerLeave]. *)
Definition handleGridPointerUp (st : State) : State * list Call :=
  let idle := with_dragMetrics (with_dragState st None) None in
  match dragState st with
  | Some d =>
      match mode d, hasMoved d with
      | resize, false =>
          let newMelody := js_set (melody st) (startStep d) None in
          let newMelody :=
            clear_loop (TOTAL_STEPS - S (startStep d)) (S (startStep d)) newMelody in
          (with_melody idle newMelody, [onSetMelody newMelody])
      | _, _ => (idle, [])
      end
  | None => (idle, [])
  end.

(** The window listener for [pointerup], [touchend] and [touchcancel]. *)
Definition handleGlobalPointerUp (st : State) : State :=
  match dragState st with
  | Some _ => with_dragMetrics (with_dragState st None) None
  | None => st
  end.

(** The pointer events of the grid. *)
Inductive Event :=
| PointerDownEvent (e : PointerDown)
| PointerMoveEvent (e : PointerMove)
| PointerUpEvent
| PointerLeaveEvent.

Definition handle (st : State) (ev : Event) : State * list Call :=
  match ev with
  | PointerDownEvent e => handleGridPointerDown st e
  | PointerMoveEvent e => handleGridPointerMove st e
  | PointerUpEvent => handleGridPointerUp st
  | PointerLeaveEvent => handleGridPointerUp st
  end.

(** A run of events: the final state and every call made, in order. *)
Fixpoint run (st : State) (evs : list Event) : State * list Call :=
  match evs with
  | [] => (st, [])
  | ev :: evs' =>
      let '(st1, calls1) := handle st ev in
      let '(st2, calls2) := run st1 evs' in
      (st2, calls1 ++ calls2)
  end.

(** The flags the render computes for the cell of a pitch row and a step:
    [isActive], [isHead] and [isTail]. *)
Definition cell_isActive (melody : Melody) (pitch : string) (stepIndex : nat) : bool :=
  token_eqb (js_get (resolvedMelody melody) stepIndex) (Some pitch).

Definition cell_isHead (melody : Melody) (pitch : string) (stepIndex : nat) : bool :=
  cell_isActive melody pitch stepIndex && token_eqb (js_get melody stepIndex) (Some pitch).

Definition cell_isTail (melody : Melody) (pitch : string) (stepIndex : nat) : bool :=
  cell_isActive melody pitch stepIndex && is_sustain (js_get melody stepIndex).


End Component.

End PianoRoll.

(** ** services/audio.ts *)

(** What the service uses of the Tone.js library.  A synthesizer is the list
    of the notes it is sounding: [triggerAttackRelease] adds to it,
    [releaseAll] empties it (the timed release of a note is the library's).
    The transport is its [state]; [start] acts unless it is started, [pause]
    only when it is started. *)
Module Tone.

Definition PolySynth := list string.

Definition triggerAttackRelease (synth : PolySynth) (notes : list string) : PolySynth :=
  synth ++ notes.

Definition releaseAll (synth : PolySynth) : PolySynth := [].

Inductive TransportState := started | stopped | paused.

Definition Transport_start (s : TransportState) : TransportState :=
  match s with
  | started => started
  | _ => started
  end.

Definition Transport_pause (s : TransportState) : TransportState :=
  match s with
  | started => paused
  | _ => s
  end.

Definition Transport_stop (s : TransportState) : TransportState := stopped.

End Tone.

Module AudioService.

(** The private fields of the service and the transport it drives.  The
    effect chain ([reverb], [limiter]) has no part in scheduling.
    [onStepCallback] is kept as whether one is registered: the only callback
    ever registered is the view's [setCurrentStep]. *)
Record State := {
  synth : option Tone.PolySynth;
  chordSynth : option Tone.PolySynth;
  sequence : bool;
  melody : Melody;
  progression : option Progression;
  isInitialized : bool;
  isChordEnabled : bool;
  onStepCallback : bool;
  currentStepIndex : nat;
  Transport_state : Tone.TransportState;
  Transport_bpm : nat
}.

(** The service as the module creates it. *)
Definition initial `{Constants} : State :=
  {| synth := None; chordSynth := None; sequence := false;
     melody := replicate TOTAL_STEPS None; progression := None;
     isInitialized := false; isChordEnabled := true; onStepCallback := false;
     currentStepIndex := 0; Transport_state := Tone.stopped; Transport_bpm := 120 |}.

(** What a callback of the sequence hands to its collaborators: the step
    reported to the view, and the notes given to the synthesizers, with the
    duration of a melody note counted in steps (eighth notes). *)
Inductive Call :=
| stepCallback (stepIndex : nat)
| melodyNote (note : string) (durationSteps : nat)
| chordNotes (notes : list string).

Definition with_synths (st : State) (s c : option Tone.PolySynth) : State :=
  {| synth := s; chordSynth := c; sequence := sequence st; melody := melody st;
     progression := progression st; isInitialized := isInitialized st;
     isChordEnabled := isChordEnabled st; onStepCallback := onStepCallback st;
     currentStepIndex := currentStepIndex st;
     Transport_state := Transport_state st; Transport_bpm := Transport_bpm st |}.

Definition with_currentStepIndex (st : State) (i : nat) : State :=
  {| synth := synth st; chordSynth := chordSynth st; sequence := sequence st;
     melody := melody st; progression := progression st;
     isInitialized := isInitialized st; isChordEnabled := isChordEnabled st;
     onStepCallback := onStepCallback st; currentStepIndex := i;
     Transport_state := Transport_state st; Transport_bpm := Transport_bpm st |}.

Definition with_Transport_state (st : State) (t : Tone.TransportState) : State :=
  {| synth := synth st; chordSynth := chordSynth st; sequence := sequence st;
     melody := melody st; progression := progression st;
     isInitialized := isInitialized st; isChordEnabled := isChordEnabled st;
     onStepCallback := onStepCallback st; currentStepIndex := currentStepIndex st;
     Transport_state := t; Transport_bpm := Transport_bpm st |}.

(** [init], up to the creation of the sequence. *)
Definition init (st : State) : State :=
  if isInitialized st then st
  else
    {| synth := Some []; chordSynth := Some []; sequence := true;
       melody := melody st; progression := progression st;
       isInitialized := true; isChordEnabled := isChordEnabled st;
       onStepCallback := onStepCallback st;
       currentStepIndex := currentStepIndex st;
       Transport_state := Transport_state st; Transport_bpm := 100 |}.

(** [triggerChord]: the notes given to the chord synthesizer, if any. *)
Definition triggerChord (st : State) (barIndex : nat) : State * list Call :=
  match chordSynth st, progression st with
  | Some cs, Some prog =>
      match prog !! barIndex with
      | Some c =>
          let root3 := String.append (root c) "3" in
          let others :=
            map (fun n => String.append n "4")
                (filter (fun n => n <> root c) (notes c)) in
          let played := root3 :: others in
          (with_synths st (synth st) (Some (Tone.triggerAttackRelease cs played)),
           [chordNotes played])
      | None => (st, [])
      end
  | _, _ => (st, [])
  end.

(** [for (i = stepIndex + 1; i < this.melody.length; i++) if (this.melody[i]
    === SUSTAIN_TOKEN) durationSteps++; else break], for the [n] indices
    from [i]. *)
Fixpoint duration_loop (melody : Melody) (n i durationSteps : nat) : nat :=
  match n with
  | 0 => durationSteps
  | S n' =>
      if is_sustain (js_get melody i) then duration_loop melody n' (S i) (S durationSteps)
      else durationSteps
  end.

Section Scheduling.
Context `{Constants}.

(** The callback of the sequence, fired once per step. *)
Definition onSequenceStep (st : State) (stepIndex : nat) : State * list Call :=
  let st := with_currentStepIndex st stepIndex in
  let calls0 := if onStepCallback st then [stepCallback stepIndex] else [] in
  let note := js_get (melody st) stepIndex in
  let '(st, calls1) :=
    match note, synth st with
    | Some n, Some s =>
        if truthy note && negb (is_sustain note) then
          let durationSteps :=
            duration_loop (melody st) (length (melody st) - S stepIndex) (S stepIndex) 1 in
          (with_synths st (Some (Tone.triggerAttackRelease s [n])) (chordSynth st),
           [melodyNote n durationSteps])
        else (st, [])
    | _, _ => (st, [])
    end in
  let '(st, calls2) :=
    match chordSynth st, progression st with
    | Some _, Some _ =>
        if isChordEnabled st && Nat.eqb (stepIndex mod STEPS_PER_BAR) 0 then
          triggerChord st (stepIndex / STEPS_PER_BAR)
        else (st, [])
    | _, _ => (st, [])
    end in
  (st, calls0 ++ calls1 ++ calls2).

End Scheduling.

Definition updateMelody (st : State) (m : Melody) : State :=
  {| synth := synth st; chordSynth := chordSynth st; sequence := sequence st;
     melody := m; progression := progression st;
     isInitialized := isInitialized st; isChordEnabled := isChordEnabled st;
     onStepCallback := onStepCallback st; currentStepIndex := currentStepIndex st;
     Transport_state := Transport_state st; Transport_bpm := Transport_bpm st |}.

Definition updateProgression (st : State) (p : Progression) : State :=
  {| synth := synth st; chordSynth := chordSynth st; sequence := sequence st;
     melody := melody st; progression := Some p;
     isInitialized := isInitialized st; isChordEnabled := isChordEnabled st;
     onStepCallback := onStepCallback st; currentStepIndex := currentStepIndex st;
     Transport_state := Transport_state st; Transport_bpm := Transport_bpm st |}.

Definition setStepCallback (st : State) : State :=
  {| synth := synth st; chordSynth := chordSynth st; sequence := sequence st;
     melody := melody st; progression := progression st;
     isInitialized := isInitialized st; isChordEnabled := isChordEnabled st;
     onStepCallback := true; currentStepIndex := currentStepIndex st;
     Transport_state := Transport_state st; Transport_bpm := Transport_bpm st |}.

Definition setBpm (st : State) (bpm : nat) : State :=
  {| synth := synth st; chordSynth := chordSynth st; sequence := sequence st;
     melody := melody st; progression := progression st;
     isInitialized := isInitialized st; isChordEnabled := isChordEnabled st;
     onStepCallback := onStepCallback st; currentStepIndex := currentStepIndex st;
     Transport_state := Transport_state st; Transport_bpm := bpm |}.

Definition releaseAll (st : State) : State :=
  with_synths st (Tone.releaseAll <$> synth st) (Tone.releaseAll <$> chordSynth st).

Definition play (st : State) : State :=
  let st := if isInitialized st then st else init st in
  with_Transport_state st (Tone.Transport_start (Transport_state st)).

Definition pause (st : State) : State :=
  releaseAll (with_Transport_state st (Tone.Transport_pause (Transport_state st))).

Definition stop (st : State) : State :=
  releaseAll
    (with_currentStepIndex
       (with_Transport_state st (Tone.Transport_stop (Transport_state st))) 0).

Definition previewNote (st : State) (note : string) : State :=
  match synth st with
  | None => st
  | Some s => with_synths st (Some (Tone.triggerAttackRelease s [note])) (chordSynth st)
  end.

Definition with_isChordEnabled (st : State) (enabled : bool) : State :=
  {| synth := synth st; chordSynth := chordSynth st; sequence := sequence st;
     melody := melody st; progression := progression st;
     isInitialized := isInitialized st; isChordEnabled := enabled;
     onStepCallback := onStepCallback st; currentStepIndex := currentStepIndex st;
     Transport_state := Transport_state st; Transport_bpm := Transport_bpm st |}.

Definition is_started (t : Tone.TransportState) : bool :=
  match t with
  | Tone.started => true
  | _ => false
  end.

(** [setChordEnabled]: enabling while the transport runs triggers the chord
    of the current bar at once; disabling releases the chord synthesizer. *)
Definition setChordEnabled `{Constants} (st : State) (enabled : bool) : State * list Call :=
  let st := with_isChordEnabled st enabled in
  if enabled && isInitialized st && is_started (Transport_state st) then
    triggerChord st (currentStepIndex st / STEPS_PER_BAR)
  else if negb enabled then
    match chordSynth st with
    | Some cs => (with_synths st (synth st) (Some (Tone.releaseAll cs)), [])
    | None => (st, [])
    end
  else (st, []).

(** Every note either synthesizer is sounding. *)
Definition sounding (st : State) : list string :=
  default [] (synth st) ++ default [] (chordSynth st).

End AudioService.

(** ** components/MonoMelody.tsx *)

Module MonoMelody.

(** The hooks of the view that the transport buttons touch, and the audio
    service singleton they drive.  [currentStep] is [-1] when no step is
    playing. *)
Record State := {
  isPlaying : bool;
  currentStep : Z;
  audioService : AudioService.State
}.

Definition handlePlayPause (st : State) : State :=
  let svc := AudioService.init (audioService st) in
  if isPlaying st then
    {| isPlaying := false; currentStep := currentStep st;
       audioService := AudioService.pause svc |}
  else
    {| isPlaying := true; currentStep := currentStep st;
       audioService := AudioService.play svc |}.

Definition handleStop (st : State) : State :=
  {| isPlaying := false; currentStep := (-1)%Z;
     audioService := AudioService.stop (audioService st) |}.

(** The step callback registered with the service: [setCurrentStep(step)]. *)
Definition onStep (st : State) (step : nat) : State :=
  {| isPlaying := isPlaying st; currentStep := Z.of_nat step;
     audioService := audioService st |}.

(** [handleClear]: the timeline it sets. *)
Definition handleClear `{Constants} : Melody := replicate TOTAL_STEPS None.

(** [onUpdateProgression]: [next[idx] = chord] on a copy of the progression.
    The chord timeline calls it with the index of a slot it rendered from
    [progression.map], so the store is in range; the embedding covers that
    case only. *)
Definition onUpdateProgression (progression : Progression) (idx : nat) (chord : Chord)
    : Progression :=
  <[idx := chord]> progression.

(** One callback of the sequence, seen from the view once the report it
    schedules with [Tone.Draw.schedule] has landed: the service has run the
    callback and the registered step callback has set [currentStep]. *)
Definition tick `{Constants} (st : State) (stepIndex : nat) : State :=
  {| isPlaying := isPlaying st;
     currentStep :=
       if AudioService.onStepCallback (audioService st) then Z.of_nat stepIndex
       else currentStep st;
     audioService := (AudioService.onSequenceStep (audioService st) stepIndex).1 |}.

(** What happens to the transport of a mounted view: the two buttons of the
    controls and the callbacks of the sequence. *)
Inductive Event :=
| PlayPauseButton
| StopButton
| SequenceStep (stepIndex : nat).

Definition handle `{Constants} (st : State) (ev : Event) : State :=
  match ev with
  | PlayPauseButton => handlePlayPause st
  | StopButton => handleStop st
  | SequenceStep stepIndex => tick st stepIndex
  end.

(** The view as it mounts: nothing playing, no step shown, and the service
    after the effects of the first render, which register the step callback
    and hand over the chord switch, the empty melody, the default progression
    and the tempo. *)
Definition mounted `{Constants} : State :=
  let svc := AudioService.setStepCallback AudioService.initial in
  let svc := (AudioService.setChordEnabled svc true).1 in
  let svc := AudioService.updateMelody svc (replicate TOTAL_STEPS None) in
  let svc := AudioService.updateProgression svc DEFAULT_PROGRESSION in
  let svc := AudioService.setBpm svc 100 in
  let svc := (AudioService.setChordEnabled svc true).1 in
  {| isPlaying := false; currentStep := (-1)%Z; audioService := svc |}.

End MonoMelody.

(** ** The timeline model, in the words of its description *)

(** A slot holds a concrete pitch when it is a non-empty string other than
    the sustain marker. *)
Definition is_pitch (t : Token) : bool := truthy t && negb (is_sustain t).

(** A slot is empty when it holds what the source reads as no token: [null],
    a hole, or the empty string. *)
Definition is_empty (t : Token) : bool := negb (truthy t) && negb (is_sustain t).

(** A pitch with its octave digits removed: the characters of the pitch that
    are none of the ten decimal digits, in their order. *)
Definition decimal_digits : list ascii :=
  ["0"; "1"; "2"; "3"; "4"; "5"; "6"; "7"; "8"; "9"]%char.

Definition without_digits (pitch : string) : string :=
  string_of_list_ascii
    (filter (fun c => c ∉ decimal_digits) (list_ascii_of_string pitch)).

(** The rows of the piano roll that carry no sharp, from the top. *)
Definition natural_rows : list string :=
  ["B4"; "A4"; "G4"; "F4"; "E4"; "D4"; "C4"; "B3"; "A3"; "G3"; "F3"; "E3"; "D3"; "C3"].

(** The single left-to-right pass: [head] is the current head pitch. *)
Fixpoint resolve_pass (head : Token) (timeline : Melody) : list Token :=
  match timeline with
  | [] => []
  | slot :: rest =>
      if is_sustain slot then head :: resolve_pass head rest
      else if is_pitch slot then slot :: resolve_pass slot rest
      else None :: resolve_pass None rest
  end.

(** The pitch sounding at step [i]: the slot's own pitch, the pitch of the
    nearest head before a sustain marker, or nothing. *)
Fixpoint sounding_at (timeline : Melody) (i : nat) : Token :=
  let slot := js_get timeline i in
  if is_sustain slot then
    match i with
    | 0 => None
    | S j => sounding_at timeline j
    end
  else if is_pitch slot then slot
  else None.

(** The number of consecutive sustain markers at the front of a timeline. *)
Fixpoint sustain_run (timeline : Melody) : nat :=
  match timeline with
  | slot :: rest => if is_sustain slot then S (sustain_run rest) else 0
  | [] => 0
  end.

(** ** The documented scenarios *)

(** Scenario A: a note of three steps on an 8-step timeline. *)
Definition scenarioA_timeline : Melody :=
  [None; None; Some "C4"; Some "HOLD"; Some "HOLD"; None; None; None].

Definition scenarioA_resolved : list Token :=
  [None; None; Some "C4"; Some "C4"; Some "C4"; None; None; None].

(** A timeline that opens with sustain markers no head precedes, and has
    another such run after an empty slot. *)
Definition headless_timeline : Melody :=
  [Some "HOLD"; Some "HOLD"; Some "G4"; Some "HOLD"; None; Some "HOLD"; Some "HOLD"; None].

(** The view at rest on a timeline, with the default progression. *)
Definition idle_view (noteMode : NoteMode) (timeline : Melody) : PianoRoll.State :=
  {| PianoRoll.progression := DEFAULT_PROGRESSION; PianoRoll.melody := timeline;
     PianoRoll.noteMode := noteMode; PianoRoll.dragState := None;
     PianoRoll.dragMetrics := None |}.

(** A grid whose first cell starts 48 units from the left and is 40 wide. *)
Definition grid_metrics : PianoRoll.Metrics :=
  {| PianoRoll.startX := 48; PianoRoll.stepWidth := 40 |}.

(** A pointer-down on the cell of a step and a pitch row. *)
Definition pointerDownOn (step : nat) (pitch : string) : PianoRoll.PointerDown :=
  {| PianoRoll.target := Some {| PianoRoll.data_step := step; PianoRoll.data_pitch := pitch |};
     PianoRoll.firstCell := Some grid_metrics |}.

(** A pointer-move to a point 7 units inside the column of a step. *)
Definition pointerMoveTo (step : nat) : PianoRoll.PointerMove :=
  {| PianoRoll.clientX := 48 + 40 * Z.of_nat step + 7; PianoRoll.elementFromPoint := None |}.

(** Scenario C: a note of three steps, grabbed at its last step and shrunk. *)
Definition scenarioC_timeline : Melody :=
  [None; None; Some "E4"; Some "HOLD"; Some "HOLD"; None; None; None].

Definition scenarioC_result : Melody :=
  [None; None; Some "E4"; Some "HOLD"; None; None; None; None].

(** The gesture that scenario C opens: the note at step 2 grabbed for a
    resize. *)
Definition grabbed_drag : PianoRoll.DragState :=
  {| PianoRoll.isActive := true; PianoRoll.startStep := 2; PianoRoll.pitch := "E4";
     PianoRoll.mode := PianoRoll.resize; PianoRoll.hasMoved := false |}.

Definition grabbed_view (noteMode : NoteMode) : PianoRoll.State :=
  {| PianoRoll.progression := DEFAULT_PROGRESSION; PianoRoll.melody := scenarioC_timeline;
     PianoRoll.noteMode := noteMode; PianoRoll.dragState := Some grabbed_drag;
     PianoRoll.dragMetrics := Some grid_metrics |}.

(** Scenario D: a note of one step at step 2 of the 32-step timeline. *)
Definition scenarioD_timeline : Melody := <[2 := Some "C4"]> (replicate 32 None).

(** A note of three steps at the start of an 8-step timeline. *)
Definition long_note_timeline : Melody :=
  [Some "C4"; Some "HOLD"; Some "HOLD"; None; None; None; None; None].

(** Every pointer-down of the event lands on the row of [pitch], or on no
    cell at all. *)
Definition gesture_on (pitch : string) (ev : PianoRoll.Event) : bool :=
  match ev with
  | PianoRoll.PointerDownEvent e =>
      match PianoRoll.target e with
      | Some cell => String.eqb (PianoRoll.data_pitch cell) pitch
      | None => true
      end
  | _ => true
  end.

(** The melody notes among the calls of a sequence callback, each with its
    duration in steps. *)
Definition melody_note_of (c : AudioService.Call) : option (string * nat) :=
  match c with
  | AudioService.melodyNote note durationSteps => Some (note, durationSteps)
  | _ => None
  end.

Definition melody_notes (calls : list AudioService.Call) : list (string * nat) :=
  omap melody_note_of calls.

(** The service of the 8-step grid, playing scenario A, before and after the
    callback of step 2; and the view showing that step. *)
Definition loaded_service : AudioService.State :=
  AudioService.updateMelody
    (AudioService.play
       (AudioService.updateProgression
          (AudioService.setStepCallback (@AudioService.initial one_bar_constants))
          DEFAULT_PROGRESSION))
    scenarioA_timeline.

Definition playing_service : AudioService.State :=
  (@AudioService.onSequenceStep one_bar_constants loaded_service 2).1.

Definition playing_view : MonoMelody.State :=
  {| MonoMelody.isPlaying := true; MonoMelody.currentStep := 2;
     MonoMelody.audioService := playing_service |}.

(** The chord I of the palette, the first of the default progression. *)
Definition chord_I : Chord :=
  {| chord_id := "I"; roman := "I"; name := "도 (C)"; mood := "행복해요";
     notes := ["C"; "E"; "G"]; root := "C"; type := major; color := COLORS_I |}.

(** The chord V of the palette, and a short gesture on the empty 8-step
    timeline: a note drawn from step 2 to step 4. *)
Definition chord_V : Chord :=
  {| chord_id := "V"; roman := "V"; name := "솔 (G)"; mood := "신나요";
     notes := ["G"; "B"; "D"]; root := "G"; type := major; color := COLORS_V |}.

Definition draw_gesture : list PianoRoll.Event :=
  [PianoRoll.PointerDownEvent (pointerDownOn 2 "E4");
   PianoRoll.PointerMoveEvent (pointerMoveTo 4);
   PianoRoll.PointerUpEvent].

(** ** Invariants of the piano roll *)

(** Every sustain marker directly follows a slot that is not empty: a pitch
    or another sustain marker. *)
Definition headed (timeline : Melody) : Prop :=
  forall i, is_sustain (js_get timeline i) = true ->
    exists j, i = S j /\ is_empty (js_get timeline j) = false.

(** A cell the grid renders: a step of the timeline on one of the pitch
    rows. *)
Definition rendered_cell `{Constants} (c : PianoRoll.Cell) : Prop :=
  PianoRoll.data_step c < TOTAL_STEPS /\ PianoRoll.data_pitch c ∈ PITCH_ROWS.

(** A pointer event whose cells, if any, are cells of the grid. *)
Definition dom_event `{Constants} (ev : PianoRoll.Event) : Prop :=
  match ev with
  | PianoRoll.PointerDownEvent e =>
      forall c, PianoRoll.target e = Some c -> rendered_cell c
  | PianoRoll.PointerMoveEvent e =>
      forall c, PianoRoll.elementFromPoint e = Some c -> rendered_cell c
  | _ => True
  end.

(** What the handlers keep: a timeline of [TOTAL_STEPS] slots whose sustain
    markers are headed, and a gesture that starts inside the timeline on a
    concrete pitch. *)
Definition view_invariant `{Constants} (st : PianoRoll.State) : Prop :=
  length (PianoRoll.melody st) = TOTAL_STEPS /\
  headed (PianoRoll.melody st) /\
  forall d, PianoRoll.dragState st = Some d ->
    PianoRoll.startStep d < TOTAL_STEPS /\ is_pitch (Some (PianoRoll.pitch d)) = true.

(** The chord calls among the calls of the service. *)
Definition chord_notes_of (c : AudioService.Call) : option (list string) :=
  match c with
  | AudioService.chordNotes notes => Some notes
  | _ => None
  end.

Definition chord_calls (calls : list AudioService.Call) : list (list string) :=
  omap chord_notes_of calls.

(** The view runs a list of transport events. *)
Definition press_all `{Constants} (st : MonoMelody.State) (evs : list MonoMelody.Event)
    : MonoMelody.State :=
  foldl MonoMelody.handle st evs.

(** * Properties *)

(** ** JavaScript arrays *)

Lemma js_get_lookup (arr : Melody) (i : nat) (t : Token) :
  arr !! i = Some t -> js_get arr i = t.
Proof. unfold js_get. by intros ->. Qed.

Lemma js_get_ge (arr : Melody) (i : nat) : length arr <= i -> js_get arr i = None.
Proof. intros Hi. unfold js_get. by rewrite lookup_ge_None_2. Qed.

Lemma js_set_in_range (arr : Melody) (i : nat) (v : Token) :
  i < length arr -> js_set arr i v = <[i := v]> arr.
Proof. intros Hi. unfold js_set. by rewrite decide_True. Qed.

Lemma js_set_length (arr : Melody) (i : nat) (v : Token) :
  i < length arr -> length (js_set arr i v) = length arr.
Proof. intros Hi. rewrite js_set_in_range by done. apply length_insert. Qed.

Lemma js_get_set_eq (arr : Melody) (i : nat) (v : Token) :
  js_get (js_set arr i v) i = v.
Proof.
  unfold js_set. case_decide as Hi.
  - apply js_get_lookup. by apply list_lookup_insert_eq.
  - apply js_get_lookup. rewrite lookup_app_r by lia.
    rewrite lookup_app_r; rewrite length_replicate; [|lia].
    by replace (i - length arr - (i - length arr)) with 0 by lia.
Qed.

Lemma js_get_set_ne (arr : Melody) (i j : nat) (v : Token) :
  i <> j -> js_get (js_set arr i v) j = js_get arr j.
Proof.
  intros Hne. unfold js_set. case_decide as Hi.
  - unfold js_get. by rewrite list_lookup_insert_ne.
  - destruct (decide (j < length arr)) as [Hj|Hj].
    + unfold js_get. by rewrite lookup_app_l.
    + rewrite (js_get_ge arr j) by lia.
      destruct (decide (j < i)) as [Hji|Hji].
      * apply js_get_lookup. rewrite lookup_app_r by lia.
        rewrite lookup_app_l by (rewrite length_replicate; lia).
        apply lookup_replicate_2. lia.
      * apply js_get_ge. rewrite !length_app, length_replicate. simpl. lia.
Qed.

Lemma js_get_eq_lookup (arr : Melody) (i : nat) :
  i < length arr -> arr !! i = Some (js_get arr i).
Proof.
  intros Hi. unfold js_get.
  destruct (lookup_lt_is_Some_2 arr i Hi) as [t ->]. done.
Qed.

(** ** Slots *)

Lemma is_pitch_not_sustain (t : Token) : is_pitch t = true -> is_sustain t = false.
Proof. unfold is_pitch. destruct (is_sustain t), (truthy t); naive_solver. Qed.

Lemma is_sustain_spec (t : Token) : is_sustain t = true <-> t = Some SUSTAIN_TOKEN.
Proof.
  destruct t as [s|]; simpl; [|naive_solver].
  rewrite String.eqb_eq. naive_solver.
Qed.

Lemma slot_cases (t : Token) :
  (is_sustain t = true /\ is_pitch t = false /\ is_empty t = false) \/
  (is_sustain t = false /\ is_pitch t = true /\ is_empty t = false) \/
  (is_sustain t = false /\ is_pitch t = false /\ is_empty t = true).
Proof. unfold is_pitch, is_empty. destruct (is_sustain t), (truthy t); naive_solver. Qed.

(** ** Timeline resolution *)

Section Resolution.
Context `{Constants}.
Import PianoRoll.

Lemma sounding_at_pitch (timeline : Melody) (i : nat) :
  is_pitch (js_get timeline i) = true -> sounding_at timeline i = js_get timeline i.
Proof.
  intros Hp. destruct i; simpl; rewrite (is_pitch_not_sustain _ Hp), Hp; done.
Qed.

Lemma sounding_at_empty (timeline : Melody) (i : nat) :
  is_empty (js_get timeline i) = true -> sounding_at timeline i = None.
Proof.
  intros He. destruct (slot_cases (js_get timeline i)) as [(?&?&?)|[(?&?&?)|(Hs&Hp&_)]];
    try congruence.
  destruct i; simpl; rewrite Hs, Hp; done.
Qed.

Lemma sounding_at_sustain (timeline : Melody) (i : nat) :
  is_sustain (js_get timeline (S i)) = true ->
  sounding_at timeline (S i) = sounding_at timeline i.
Proof. intros Hs. simpl. rewrite Hs. done. Qed.

(** What sounds at a step is a concrete pitch or nothing. *)
Lemma sounding_at_pitch_or_none (timeline : Melody) (i : nat) :
  sounding_at timeline i = None \/ is_pitch (sounding_at timeline i) = true.
Proof.
  induction i as [|i IH]; simpl.
  - destruct (is_sustain (js_get timeline 0)); [by left|].
    destruct (is_pitch (js_get timeline 0)) eqn:Hp; [by right | by left].
  - destruct (is_sustain (js_get timeline (S i))); [exact IH|].
    destruct (is_pitch (js_get timeline (S i))) eqn:Hp; [by right | by left].
Qed.

(** The loop of [resolvedMelody] fills [result] with what sounds at each step
    it visits, and carries in [lastPitch] what sounds at the step before. *)
Lemma resolve_loop_sounding (melody : Melody) (n : nat) :
  forall (i : nat) (lastPitch : Token) (result : list Token),
    i + n <= length result ->
    lastPitch = match i with 0 => None | S j => sounding_at melody j end ->
    (forall k, k < i -> js_get result k = sounding_at melody k) ->
    length (resolve_loop melody n i lastPitch result) = length result /\
    forall k, k < i + n ->
      js_get (resolve_loop melody n i lastPitch result) k = sounding_at melody k.
Proof.
  induction n as [|n IH]; intros i lastPitch result Hlen Hlast Hres.
  - simpl. split; [done|]. intros k Hk. apply Hres. lia.
  - assert (Hstep : forall v, v = sounding_at melody i ->
        length (resolve_loop melody n (S i) v (js_set result i v)) = length result /\
        forall k, k < i + S n ->
          js_get (resolve_loop melody n (S i) v (js_set result i v)) k
          = sounding_at melody k).
    { intros v Hv.
      destruct (IH (S i) v (js_set result i v)) as [IHlen IHget].
      - rewrite js_set_length; lia.
      - exact Hv.
      - intros k Hk. destruct (decide (k = i)) as [->|Hne].
        + by rewrite js_get_set_eq.
        + rewrite js_get_set_ne by done. apply Hres. lia.
      - split.
        + rewrite IHlen. apply js_set_length. lia.
        + intros k Hk. apply IHget. lia. }
    simpl. destruct (is_sustain (js_get melody i)) eqn:Hs.
    + apply Hstep. subst lastPitch. destruct i; simpl; rewrite Hs; done.
    + destruct (truthy (js_get melody i)) eqn:Ht.
      * apply Hstep. symmetry. apply sounding_at_pitch.
        unfold is_pitch. by rewrite Ht, Hs.
      * apply Hstep. symmetry. apply sounding_at_empty.
        unfold is_empty. by rewrite Ht, Hs.
Qed.

Lemma resolvedMelody_length (melody : Melody) :
  length (resolvedMelody melody) = TOTAL_STEPS.
Proof.
  unfold resolvedMelody.
  destruct (resolve_loop_sounding melody TOTAL_STEPS 0 None (replicate TOTAL_STEPS None))
    as [Hlen _].
  - rewrite length_replicate. lia.
  - done.
  - intros k Hk. lia.
  - by rewrite Hlen, length_replicate.
Qed.

Lemma resolvedMelody_sounding (melody : Melody) (i : nat) :
  i < TOTAL_STEPS -> js_get (resolvedMelody melody) i = sounding_at melody i.
Proof.
  intros Hi. unfold resolvedMelody.
  destruct (resolve_loop_sounding melody TOTAL_STEPS 0 None (replicate TOTAL_STEPS None))
    as [_ Hget].
  - rewrite length_replicate. lia.
  - done.
  - intros k Hk. lia.
  - apply Hget. lia.
Qed.

(** The same loop, as the left-to-right pass over the slots it reads. *)
Lemma resolve_loop_pass (melody : Melody) (n : nat) :
  forall (i : nat) (lastPitch : Token) (result : list Token),
    i + n <= length result ->
    resolve_loop melody n i lastPitch result
    = take i result ++ resolve_pass lastPitch (js_get melody <$> seq i n)
      ++ drop (i + n) result.
Proof.
  induction n as [|n IH]; intros i lastPitch result Hlen.
  - simpl. rewrite Nat.add_0_r. by rewrite take_drop.
  - assert (Hstep : forall v,
        resolve_loop melody n (S i) v (js_set result i v)
        = take i result ++ (v :: resolve_pass v (js_get melody <$> seq (S i) n))
          ++ drop (i + S n) result).
    { intros v. rewrite IH by (rewrite js_set_length; lia).
      rewrite js_set_in_range by lia.
      rewrite (take_S_r _ i v) by (apply list_lookup_insert_eq; lia).
      rewrite take_insert_ge by lia.
      rewrite drop_insert_lt by lia.
      replace (S i + n) with (i + S n) by lia.
      by rewrite <- app_assoc. }
    simpl. destruct (is_sustain (js_get melody i)) eqn:Hs; [apply Hstep|].
    unfold is_pitch. rewrite Hs, andb_true_r.
    destruct (truthy (js_get melody i)); apply Hstep.
Qed.

Lemma js_get_seq_id (melody : Melody) :
  js_get melody <$> seq 0 (length melody) = melody.
Proof.
  apply list_eq. intros i. rewrite list_lookup_fmap.
  destruct (decide (i < length melody)) as [Hi|Hi].
  - rewrite lookup_seq_lt by done. simpl. by rewrite js_get_eq_lookup.
  - rewrite lookup_seq_ge by lia. simpl. by rewrite lookup_ge_None_2 by lia.
Qed.

Lemma resolvedMelody_pass_any (melody : Melody) :
  resolvedMelody melody = resolve_pass None (js_get melody <$> seq 0 TOTAL_STEPS).
Proof.
  unfold resolvedMelody. rewrite resolve_loop_pass by (rewrite length_replicate; lia).
  rewrite take_0, drop_ge by (rewrite length_replicate; lia).
  by rewrite app_nil_r.
Qed.

End Resolution.

Section ResolvedTimeline.
Context `{Constants}.
Import PianoRoll.

(** C1.  On a timeline of [TOTAL_STEPS] slots, [resolvedMelody] is the single
    left-to-right pass that starts with no head: a sustain slot outputs the
    current head (nothing when no head is active), a pitch slot becomes the
    head and is output, an empty slot clears the head and outputs nothing.
    Hence every slot that holds a concrete pitch resolves to that pitch, and
    the 8-step timeline [null, null, "C4", "HOLD", "HOLD", null, null, null]
    resolves to [null, null, "C4", "C4", "C4", null, null, null]. *)
Theorem resolvedMelody_single_pass (timeline : Melody) :
  length timeline = TOTAL_STEPS ->
  resolvedMelody timeline = resolve_pass None timeline /\
  (forall i, is_pitch (js_get timeline i) = true ->
     js_get (resolvedMelody timeline) i = js_get timeline i) /\
  @resolvedMelody one_bar_constants scenarioA_timeline = scenarioA_resolved.
Proof.
  intros Hlen. split; [|split].
  - rewrite resolvedMelody_pass_any, <- Hlen. by rewrite js_get_seq_id.
  - intros i Hp.
    assert (Hi : i < TOTAL_STEPS).
    { destruct (decide (i < TOTAL_STEPS)) as [|Hge]; [done|].
      rewrite js_get_ge in Hp by lia. discriminate. }
    rewrite resolvedMelody_sounding by done. by apply sounding_at_pitch.
  - reflexivity.
Qed.

(** A headless run of sustain markers sounds nothing: from the start of the
    timeline, or from the slot after an empty one. *)
Lemma sounding_at_headless (timeline : Melody) (lo : nat) :
  (lo = 0 \/ is_empty (js_get timeline (lo - 1)) = true) ->
  forall i, lo <= i ->
    (forall k, lo <= k <= i -> is_sustain (js_get timeline k) = true) ->
    sounding_at timeline i = None.
Proof.
  intros Hlo i. induction i as [|i IH]; intros Hle Hrun.
  - simpl. rewrite Hrun by lia. done.
  - rewrite sounding_at_sustain by (apply Hrun; lia).
    destruct (decide (lo = S i)) as [->|Hne].
    + destruct Hlo as [?|Hlo]; [lia|].
      apply sounding_at_empty. by replace (S i - 1) with i in Hlo by lia.
    + apply IH; [lia|]. intros k Hk. apply Hrun. lia.
Qed.

(** C10.  For every timeline, whatever its length, no entry of the resolved
    timeline is the sustain marker: each is empty or a concrete pitch.  A run
    of sustain markers that no head precedes since the last empty slot (or
    since the start) resolves to empty at each of its steps. *)
Theorem resolvedMelody_no_sustain (timeline : Melody) :
  (forall t, t ∈ resolvedMelody timeline ->
     is_sustain t = false /\ (t = None \/ is_pitch t = true)) /\
  (forall lo i, lo <= i < TOTAL_STEPS ->
     (lo = 0 \/ is_empty (js_get timeline (lo - 1)) = true) ->
     (forall k, lo <= k <= i -> is_sustain (js_get timeline k) = true) ->
     js_get (resolvedMelody timeline) i = None).
Proof.
  split.
  - intros t Ht. apply list_elem_of_lookup in Ht as [i Hi].
    assert (Hlt : i < TOTAL_STEPS).
    { rewrite <- (resolvedMelody_length timeline). eapply lookup_lt_Some, Hi. }
    apply js_get_lookup in Hi. rewrite resolvedMelody_sounding in Hi by done.
    subst t. destruct (sounding_at_pitch_or_none timeline i) as [Hn|Hp].
    + rewrite Hn. split; [done | by left].
    + split; [by apply is_pitch_not_sustain | by right].
  - intros lo i [Hlo Hi] Hstart Hrun.
    rewrite resolvedMelody_sounding by done.
    by apply (sounding_at_headless timeline lo).
Qed.

End ResolvedTimeline.

Lemma resolvedMelody_single_pass_witness :
  length scenarioA_timeline = @TOTAL_STEPS one_bar_constants /\
  (@PianoRoll.resolvedMelody one_bar_constants scenarioA_timeline
   = resolve_pass None scenarioA_timeline /\
   (forall i, is_pitch (js_get scenarioA_timeline i) = true ->
      js_get (@PianoRoll.resolvedMelody one_bar_constants scenarioA_timeline) i
      = js_get scenarioA_timeline i) /\
   @PianoRoll.resolvedMelody one_bar_constants scenarioA_timeline = scenarioA_resolved).
Proof.
  split; [reflexivity|].
  apply (@resolvedMelody_single_pass one_bar_constants scenarioA_timeline).
  reflexivity.
Defined.

Lemma resolvedMelody_no_sustain_witness :
  (5 <= 6 < @TOTAL_STEPS one_bar_constants) /\
  is_empty (js_get headless_timeline (5 - 1)) = true /\
  (forall k, 5 <= k <= 6 -> is_sustain (js_get headless_timeline k) = true) /\
  js_get (@PianoRoll.resolvedMelody one_bar_constants headless_timeline) 6 = None.
Proof.
  assert (Hrun : forall k, 5 <= k <= 6 -> is_sustain (js_get headless_timeline k) = true).
  { intros k Hk. assert (k = 5 \/ k = 6) as [->| ->] by lia; reflexivity. }
  split; [unfold TOTAL_STEPS; simpl; lia|].
  split; [reflexivity|]. split; [exact Hrun|].
  apply (proj2 (@resolvedMelody_no_sustain one_bar_constants headless_timeline) 5 6).
  - unfold TOTAL_STEPS; simpl; lia.
  - right. reflexivity.
  - exact Hrun.
Defined.

(** ** The allowed-pitch predicate *)

Lemma includes_spec (xs : list string) (x : string) :
  includes xs x = true <-> x ∈ xs.
Proof.
  induction xs as [|y ys IH]; simpl.
  - rewrite elem_of_nil. naive_solver.
  - rewrite elem_of_cons. destruct (String.eqb y x) eqn:Hyx.
    + apply String.eqb_eq in Hyx. subst y. split; [intros _; by left | done].
    + apply String.eqb_neq in Hyx. rewrite IH. split; [by right|].
      intros [->|Hin]; [done | exact Hin].
Qed.

(** [strip_digits] keeps the characters that are not digits, in order. *)
Lemma strip_digits_filter (s : string) :
  strip_digits s
  = string_of_list_ascii
      (List.filter (fun c => negb (is_digit c)) (list_ascii_of_string s)).
Proof.
  induction s as [|c s IH]; simpl; [done|].
  destruct (is_digit c); simpl; by rewrite IH.
Qed.

Lemma is_digit_decimal (c : ascii) : is_digit c = bool_decide (c ∈ decimal_digits).
Proof.
  destruct c as [[] [] [] [] [] [] [] []]; vm_compute; reflexivity.
Qed.

(** The replace of [isNoteAllowed] removes the octave digits and nothing
    else. *)
Lemma strip_digits_without (p : string) : strip_digits p = without_digits p.
Proof.
  unfold without_digits. induction p as [|c p IH]; simpl; [done|].
  rewrite filter_cons, is_digit_decimal.
  destruct (decide (c ∉ decimal_digits)) as [Hnot|Hin].
  - rewrite bool_decide_eq_false_2 by done. simpl. by rewrite IH.
  - rewrite bool_decide_eq_true_2 by (by apply dec_stable). exact IH.
Qed.

Section AllowedPitch.
Context `{Constants}.
Import PianoRoll.

Lemma barIndex_unique (s b : nat) :
  b * STEPS_PER_BAR <= s < (b + 1) * STEPS_PER_BAR -> s / STEPS_PER_BAR = b.
Proof.
  intros [Hlo Hhi]. symmetry.
  apply (Nat.div_unique s STEPS_PER_BAR b (s - b * STEPS_PER_BAR)); lia.
Qed.

(** C5.  For every pitch [p] and step [s], lying in bar [b]: in chromatic
    mode [isNoteAllowed p s] holds; in scale mode it holds exactly when [p]
    with its octave digits removed is one of C, D, E, F, G, A, B, so that of
    the rows of the piano roll exactly the fourteen without a sharp are
    allowed; in chord mode it is false when the progression has no entry [b],
    and otherwise holds exactly when [p] with its octave digits removed is a
    note of the chord at entry [b].  With 8 steps per bar and a progression of
    four chords, step 10 reads entry 1: under the default progression the
    rows allowed there are those of A, C and E. *)
Theorem isNoteAllowed_by_mode (progression : Progression) (p : string) (s b : nat) :
  b * STEPS_PER_BAR <= s < (b + 1) * STEPS_PER_BAR ->
  isNoteAllowed chromatic progression p s = true /\
  (isNoteAllowed scale progression p s = true
   <-> without_digits p ∈ ["C"; "D"; "E"; "F"; "G"; "A"; "B"]) /\
  List.filter (fun row => isNoteAllowed scale progression row s) PITCH_ROWS
  = natural_rows /\
  (progression !! b = None -> isNoteAllowed chord progression p s = false) /\
  (forall c, progression !! b = Some c ->
     (isNoteAllowed chord progression p s = true <-> without_digits p ∈ notes c)) /\
  (forall c0 c1 c2 c3,
     @isNoteAllowed source_constants chord [c0; c1; c2; c3] p 10 = true
     <-> without_digits p ∈ notes c1) /\
  List.filter (fun row => @isNoteAllowed source_constants chord DEFAULT_PROGRESSION row 10)
    PITCH_ROWS
  = ["A4"; "E4"; "C4"; "A3"; "E3"; "C3"].
Proof.
  intros Hbar. apply barIndex_unique in Hbar.
  split; [done|].
  split; [rewrite <- strip_digits_without; apply includes_spec|].
  split; [reflexivity|].
  unfold isNoteAllowed. rewrite Hbar. split; [by intros ->|]. split; [|split].
  - intros c ->. rewrite <- strip_digits_without. apply includes_spec.
  - intros c0 c1 c2 c3. simpl. rewrite <- strip_digits_without. apply includes_spec.
  - reflexivity.
Qed.

End AllowedPitch.

Lemma isNoteAllowed_by_mode_witness :
  (1 * @STEPS_PER_BAR source_constants <= 10 < (1 + 1) * @STEPS_PER_BAR source_constants) /\
  without_digits "C4" = "C" /\
  @PianoRoll.isNoteAllowed source_constants scale DEFAULT_PROGRESSION "C4" 10 = true /\
  without_digits "A#3" = "A#" /\
  ~ @PianoRoll.isNoteAllowed source_constants scale DEFAULT_PROGRESSION "A#3" 10 = true.
Proof.
  assert (Hbar : 1 * @STEPS_PER_BAR source_constants <= 10
                 < (1 + 1) * @STEPS_PER_BAR source_constants) by (simpl; lia).
  split; [exact Hbar|]. split; [reflexivity|]. split; [|split; [reflexivity|]].
  - apply (proj1 (proj2
      (@isNoteAllowed_by_mode source_constants DEFAULT_PROGRESSION "C4" 10 1 Hbar))).
    apply list_elem_of_here.
  - intros Hallowed.
    apply (proj1 (proj2
      (@isNoteAllowed_by_mode source_constants DEFAULT_PROGRESSION "A#3" 10 1 Hbar)))
      in Hallowed.
    apply list_elem_of_In in Hallowed. simpl in Hallowed.
    repeat (destruct Hallowed as [Hallowed|Hallowed]; [discriminate|]).
    exact Hallowed.
Defined.

(** ** The loops of the gesture handlers *)

Section Loops.
Import PianoRoll.

(** *** Clearing sustain markers forward *)

Lemma clear_loop_before (n : nat) :
  forall (i : nat) (arr : Melody) (j : nat),
    j < i -> js_get (clear_loop n i arr) j = js_get arr j.
Proof.
  induction n as [|n IH]; intros i arr j Hj; simpl; [done|].
  destruct (is_sustain (js_get arr i)); [|done].
  rewrite IH by lia. apply js_get_set_ne. lia.
Qed.

Lemma clear_loop_beyond (n : nat) :
  forall (i : nat) (arr : Melody) (j : nat),
    i + n <= j -> js_get (clear_loop n i arr) j = js_get arr j.
Proof.
  induction n as [|n IH]; intros i arr j Hj; simpl; [done|].
  destruct (is_sustain (js_get arr i)); [|done].
  rewrite IH by lia. apply js_get_set_ne. lia.
Qed.

Lemma clear_loop_cleared (n : nat) :
  forall (i : nat) (arr : Melody) (j : nat),
    i <= j < i + n ->
    (forall k, i <= k <= j -> is_sustain (js_get arr k) = true) ->
    js_get (clear_loop n i arr) j = None.
Proof.
  induction n as [|n IH]; intros i arr j Hj Hrun; simpl; [lia|].
  rewrite (Hrun i) by lia.
  destruct (decide (j = i)) as [->|Hne].
  - rewrite clear_loop_before by lia. apply js_get_set_eq.
  - apply IH; [lia|]. intros k Hk.
    rewrite js_get_set_ne by lia. apply Hrun. lia.
Qed.

Lemma clear_loop_kept (n : nat) :
  forall (i : nat) (arr : Melody) (j : nat),
    (exists k, i <= k <= j /\ is_sustain (js_get arr k) = false) ->
    js_get (clear_loop n i arr) j = js_get arr j.
Proof.
  induction n as [|n IH]; intros i arr j (k & Hk & Hstop); simpl; [done|].
  destruct (is_sustain (js_get arr i)) eqn:Hs; [|done].
  assert (k <> i) by congruence.
  rewrite IH.
  - apply js_get_set_ne. lia.
  - exists k. split; [lia|]. rewrite js_get_set_ne by lia. done.
Qed.

Lemma clear_loop_length (n : nat) :
  forall (i : nat) (arr : Melody),
    i + n <= length arr -> length (clear_loop n i arr) = length arr.
Proof.
  induction n as [|n IH]; intros i arr Hlen; simpl; [done|].
  destruct (is_sustain (js_get arr i)); [|done].
  rewrite IH; rewrite js_set_length; lia.
Qed.

(** *** Extending a note while the pitch stays allowed *)

Lemma extend_loop_before (allowed : nat -> bool) (n : nat) :
  forall (i : nat) (arr : Melody) (j : nat),
    j < i -> js_get (extend_loop allowed n i arr) j = js_get arr j.
Proof.
  induction n as [|n IH]; intros i arr j Hj; simpl; [done|].
  destruct (allowed i); [|done].
  rewrite IH by lia. apply js_get_set_ne. lia.
Qed.

Lemma extend_loop_beyond (allowed : nat -> bool) (n : nat) :
  forall (i : nat) (arr : Melody) (j : nat),
    i + n <= j -> js_get (extend_loop allowed n i arr) j = js_get arr j.
Proof.
  induction n as [|n IH]; intros i arr j Hj; simpl; [done|].
  destruct (allowed i); [|done].
  rewrite IH by lia. apply js_get_set_ne. lia.
Qed.

Lemma extend_loop_written (allowed : nat -> bool) (n : nat) :
  forall (i : nat) (arr : Melody) (j : nat),
    i <= j < i + n ->
    (forall k, i <= k <= j -> allowed k = true) ->
    js_get (extend_loop allowed n i arr) j = Some SUSTAIN_TOKEN.
Proof.
  induction n as [|n IH]; intros i arr j Hj Hrun; simpl; [lia|].
  rewrite (Hrun i) by lia.
  destruct (decide (j = i)) as [->|Hne].
  - rewrite extend_loop_before by lia. apply js_get_set_eq.
  - apply IH; [lia|]. intros k Hk. apply Hrun. lia.
Qed.

Lemma extend_loop_kept (allowed : nat -> bool) (n : nat) :
  forall (i : nat) (arr : Melody) (j : nat),
    (exists k, i <= k <= j /\ allowed k = false) ->
    js_get (extend_loop allowed n i arr) j = js_get arr j.
Proof.
  induction n as [|n IH]; intros i arr j (k & Hk & Hstop); simpl; [done|].
  destruct (allowed i) eqn:Ha; [|done].
  assert (k <> i) by congruence.
  rewrite IH.
  - apply js_get_set_ne. lia.
  - exists k. split; [lia | done].
Qed.

Lemma extend_loop_length (allowed : nat -> bool) (n : nat) :
  forall (i : nat) (arr : Melody),
    i + n <= length arr -> length (extend_loop allowed n i arr) = length arr.
Proof.
  induction n as [|n IH]; intros i arr Hlen; simpl; [done|].
  destruct (allowed i); [|done].
  rewrite IH; rewrite js_set_length; lia.
Qed.

End Loops.

(** ** The gesture handlers *)

Lemma token_eqb_spec (a b : Token) : token_eqb a b = true <-> a = b.
Proof.
  destruct a as [x|], b as [y|]; simpl; try (split; [discriminate | congruence]).
  - rewrite String.eqb_eq. split; congruence.
  - done.
Qed.

Section DisallowedTarget.
Context `{Constants}.
Import PianoRoll.

(** One event on the row of C#4, in scale mode and at rest: nothing is
    emitted, and the view stays at rest on the same timeline. *)
Lemma handle_sharp_idle (st : State) (ev : Event) :
  noteMode st = scale -> dragState st = None -> gesture_on "C#4" ev = true ->
  (handle st ev).2 = [] /\
  melody (handle st ev).1 = melody st /\
  noteMode (handle st ev).1 = scale /\
  dragState (handle st ev).1 = None.
Proof.
  intros Hmode Hidle Hon. destruct ev as [e|e| |]; simpl.
  - unfold handleGridPointerDown. simpl in Hon.
    destruct (target e) as [cell|]; [|done].
    apply String.eqb_eq in Hon. simpl. rewrite Hmode, Hon. simpl. done.
  - unfold handleGridPointerMove. rewrite Hidle. done.
  - unfold handleGridPointerUp. rewrite Hidle. done.
  - unfold handleGridPointerUp. rewrite Hidle. done.
Qed.

Lemma run_sharp_idle (evs : list Event) :
  forall st : State,
    noteMode st = scale -> dragState st = None ->
    Forall (fun ev => gesture_on "C#4" ev = true) evs ->
    (run st evs).2 = [] /\ melody (run st evs).1 = melody st.
Proof.
  induction evs as [|ev evs IH]; intros st Hmode Hidle Hon; simpl; [done|].
  apply Forall_cons in Hon as [Hev Hevs].
  destruct (handle_sharp_idle st ev Hmode Hidle Hev) as (Hc & Hm & Hmode' & Hidle').
  destruct (handle st ev) as [st1 calls1]. simpl in *.
  destruct (IH st1 Hmode' Hidle' Hevs) as [Hc2 Hm2].
  destruct (run st1 evs) as [st2 calls2]. simpl in *.
  subst. split; [done | congruence].
Qed.

(** C6.  A pointer-down on a cell whose pitch is not allowed at its step
    starts no gesture and leaves the timeline as it is: the drag state and the
    timeline are unchanged and nothing is emitted.  In scale mode, starting at
    rest, any run of pointer events whose pointer-downs land on the row of
    "C#4", at whatever steps, emits nothing and leaves the timeline as it
    is. *)
Theorem pointerDown_disallowed_ignored (st : State) (e : PointerDown) (cell : Cell) :
  target e = Some cell ->
  isNoteAllowed (noteMode st) (progression st) (data_pitch cell) (data_step cell) = false ->
  ((handleGridPointerDown st e).2 = [] /\
   melody (handleGridPointerDown st e).1 = melody st /\
   dragState (handleGridPointerDown st e).1 = dragState st) /\
  (forall (st0 : State) (evs : list Event),
     noteMode st0 = scale -> dragState st0 = None ->
     Forall (fun ev => gesture_on "C#4" ev = true) evs ->
     (run st0 evs).2 = [] /\ melody (run st0 evs).1 = melody st0).
Proof.
  intros Htarget Hno. split.
  - unfold handleGridPointerDown. rewrite Htarget. simpl. rewrite Hno. done.
  - intros st0 evs. apply run_sharp_idle.
Qed.

End DisallowedTarget.

Lemma pointerDown_disallowed_ignored_witness :
  @PianoRoll.isNoteAllowed one_bar_constants scale DEFAULT_PROGRESSION "C#4" 3 = false /\
  (@PianoRoll.handleGridPointerDown one_bar_constants
     (idle_view scale scenarioA_timeline) (pointerDownOn 3 "C#4")).2 = [] /\
  PianoRoll.melody
    (@PianoRoll.handleGridPointerDown one_bar_constants
       (idle_view scale scenarioA_timeline) (pointerDownOn 3 "C#4")).1
  = scenarioA_timeline /\
  PianoRoll.dragState
    (@PianoRoll.handleGridPointerDown one_bar_constants
       (idle_view scale scenarioA_timeline) (pointerDownOn 3 "C#4")).1 = None.
Proof.
  split; [reflexivity|].
  exact (proj1 (@pointerDown_disallowed_ignored one_bar_constants
                  (idle_view scale scenarioA_timeline) (pointerDownOn 3 "C#4")
                  {| PianoRoll.data_step := 3; PianoRoll.data_pitch := "C#4" |}
                  eq_refl eq_refl)).
Defined.

Section PointerUp.
Context `{Constants}.
Import PianoRoll.


(** The timeline a delete-by-tap emits. *)
Lemma delete_spec (melody : Melody) (start : nat) :
  let newMelody :=
    clear_loop (TOTAL_STEPS - S start) (S start) (js_set melody start None) in
  js_get newMelody start = None /\
  (forall j, start < j < TOTAL_STEPS ->
     (forall k, start < k <= j -> is_sustain (js_get melody k) = true) ->
     js_get newMelody j = None) /\
  (forall j, start < j ->
     (exists k, start < k <= j /\ is_sustain (js_get melody k) = false) ->
     js_get newMelody j = js_get melody j) /\
  (forall j, j < start -> js_get newMelody j = js_get melody j) /\
  (length melody = TOTAL_STEPS -> start < TOTAL_STEPS -> length newMelody = TOTAL_STEPS).
Proof.
  intros newMelody. subst newMelody. repeat split.
  - rewrite clear_loop_before by lia. apply js_get_set_eq.
  - intros j Hj Hrun. apply clear_loop_cleared; [lia|].
    intros k Hk. rewrite js_get_set_ne by lia. apply Hrun. lia.
  - intros j Hj (k & Hk & Hstop). rewrite clear_loop_kept.
    + apply js_get_set_ne. lia.
    + exists k. split; [lia|]. by rewrite js_get_set_ne by lia.
  - intros j Hj. rewrite clear_loop_before by lia. apply js_get_set_ne. lia.
  - intros Hlen Hstart.
    rewrite clear_loop_length; rewrite js_set_length; lia.
Qed.

(** C4.  A pointer-up (or pointer-leave) during a gesture always ends it.  In
    resize mode with no move seen, it emits the timeline with the head slot at
    [startStep] empty and the sustain markers that follow it, up to the first
    slot that is not one, empty as well, every other slot as before.  In
    create mode, or once a move was seen, it emits nothing and the timeline
    stays.  On the 32-step timeline whose only note is "C4" at step 2, a
    pointer-down on that note and the pointer-up right after it leave the
    all-empty timeline. *)
Theorem pointerUp_ends_gesture (st : State) (d : DragState) :
  dragState st = Some d ->
  dragState (handleGridPointerUp st).1 = None /\
  (mode d = resize -> hasMoved d = false ->
     (handleGridPointerUp st).2 = [onSetMelody (melody (handleGridPointerUp st).1)] /\
     js_get (melody (handleGridPointerUp st).1) (startStep d) = None /\
     (forall j, startStep d < j < TOTAL_STEPS ->
        (forall k, startStep d < k <= j -> is_sustain (js_get (melody st) k) = true) ->
        js_get (melody (handleGridPointerUp st).1) j = None) /\
     (forall j, startStep d < j ->
        (exists k, startStep d < k <= j /\ is_sustain (js_get (melody st) k) = false) ->
        js_get (melody (handleGridPointerUp st).1) j = js_get (melody st) j) /\
     (forall j, j < startStep d ->
        js_get (melody (handleGridPointerUp st).1) j = js_get (melody st) j) /\
     (length (melody st) = TOTAL_STEPS -> startStep d < TOTAL_STEPS ->
      length (melody (handleGridPointerUp st).1) = TOTAL_STEPS)) /\
  (mode d = create \/ hasMoved d = true ->
     (handleGridPointerUp st).2 = [] /\
     melody (handleGridPointerUp st).1 = melody st) /\
  (forall noteMode,
     @run source_constants (idle_view noteMode scenarioD_timeline)
       [PointerDownEvent (pointerDownOn 2 "C4"); PointerUpEvent]
     = (idle_view noteMode (replicate 32 None),
        [onSetMelody (replicate 32 None)])).
Proof.
  intros Hd. unfold handleGridPointerUp. rewrite Hd.
  split; [destruct (mode d), (hasMoved d); done|].
  split; [|split].
  - intros -> ->. simpl. split; [done|]. apply delete_spec.
  - intros [-> | ->]; [done|]. destruct (mode d); done.
  - intros []; vm_compute; reflexivity.
Qed.

End PointerUp.



Lemma pointerUp_ends_gesture_witness :
  PianoRoll.dragState (grabbed_view chromatic) = Some grabbed_drag /\
  PianoRoll.mode grabbed_drag = PianoRoll.resize /\
  PianoRoll.hasMoved grabbed_drag = false /\
  PianoRoll.dragState
    (@PianoRoll.handleGridPointerUp one_bar_constants (grabbed_view chromatic)).1 = None /\
  js_get (PianoRoll.melody
            (@PianoRoll.handleGridPointerUp one_bar_constants (grabbed_view chromatic)).1)
         (PianoRoll.startStep grabbed_drag) = None.
Proof.
  split; [reflexivity|]. split; [reflexivity|]. split; [reflexivity|].
  pose proof (@pointerUp_ends_gesture one_bar_constants (grabbed_view chromatic)
                grabbed_drag eq_refl) as (Hidle & Htap & _).
  split; [exact Hidle|].
  exact (proj1 (proj2 (Htap eq_refl eq_refl))).
Defined.

Section PointerDownCreate.
Context `{Constants}.
Import PianoRoll.

(** What a create does.  A pointer-down on an allowed cell of step [s] and
    pitch [p], where the pitch resolved at [s] is not [p], emits the timeline
    with [p] at slot [s] and every other slot as before, then triggers the
    preview of [p]; the gesture is in create mode, started at [s], not yet
    moved. *)
Lemma pointerDown_create_writes_slot (st : State) (e : PointerDown) (cell : Cell) :
  target e = Some cell ->
  isNoteAllowed (noteMode st) (progression st) (data_pitch cell) (data_step cell) = true ->
  js_get (resolvedMelody (melody st)) (data_step cell) <> Some (data_pitch cell) ->
  (handleGridPointerDown st e).2
  = [onSetMelody (melody (handleGridPointerDown st e).1); previewNote (data_pitch cell)] /\
  js_get (melody (handleGridPointerDown st e).1) (data_step cell) = Some (data_pitch cell) /\
  (forall j, j <> data_step cell ->
     js_get (melody (handleGridPointerDown st e).1) j = js_get (melody st) j) /\
  (data_step cell < length (melody st) ->
   length (melody (handleGridPointerDown st e).1) = length (melody st)) /\
  dragState (handleGridPointerDown st e).1
  = Some {| isActive := true; startStep := data_step cell; pitch := data_pitch cell;
            mode := create; hasMoved := false |}.
Proof.
  intros Htarget Hallowed Hother.
  unfold handleGridPointerDown. rewrite Htarget. simpl. rewrite Hallowed. simpl.
  destruct (token_eqb _ _) eqn:Heq.
  { apply token_eqb_spec in Heq. done. }
  simpl. split; [done|]. split; [apply js_get_set_eq|].
  split; [intros j Hj; by apply js_get_set_ne|].
  split; [apply js_set_length | done].
Qed.

End PointerDownCreate.

(** C3.  The handler evaluated where a create overwrites the head of a longer
    note.  With "C4" held over steps 0 to 2, a pointer-down on "E4" at step 0
    is a create: the pitch is allowed and "C4" resolves there.  It emits "E4"
    at step 0 and triggers the preview, but the sustain markers at steps 1
    and 2 are still in the emitted timeline, so "E4" now resolves at step 2.
    A pointer-move of the same gesture to the same step clears them. *)
Lemma pointerDown_create_keeps_sustain :
  @PianoRoll.isNoteAllowed one_bar_constants chromatic DEFAULT_PROGRESSION "E4" 0 = true /\
  js_get (@PianoRoll.resolvedMelody one_bar_constants long_note_timeline) 0 = Some "C4" /\
  is_sustain (js_get long_note_timeline 1) = true /\
  (@PianoRoll.handleGridPointerDown one_bar_constants
     (idle_view chromatic long_note_timeline) (pointerDownOn 0 "E4")).2
  = [PianoRoll.onSetMelody
       [Some "E4"; Some "HOLD"; Some "HOLD"; None; None; None; None; None];
     PianoRoll.previewNote "E4"] /\
  js_get (PianoRoll.melody
            (@PianoRoll.handleGridPointerDown one_bar_constants
               (idle_view chromatic long_note_timeline) (pointerDownOn 0 "E4")).1) 1
  <> None /\
  js_get (@PianoRoll.resolvedMelody one_bar_constants
            (PianoRoll.melody
               (@PianoRoll.handleGridPointerDown one_bar_constants
                  (idle_view chromatic long_note_timeline) (pointerDownOn 0 "E4")).1)) 2
  = Some "E4" /\
  (@PianoRoll.run one_bar_constants (idle_view chromatic long_note_timeline)
     [PianoRoll.PointerDownEvent (pointerDownOn 0 "E4");
      PianoRoll.PointerMoveEvent (pointerMoveTo 0)]).2
  = [PianoRoll.onSetMelody
       [Some "E4"; Some "HOLD"; Some "HOLD"; None; None; None; None; None];
     PianoRoll.previewNote "E4";
     PianoRoll.onSetMelody [Some "E4"; None; None; None; None; None; None; None]].
Proof.
  split; [reflexivity|]. split; [reflexivity|]. split; [reflexivity|].
  split; [reflexivity|]. split; [vm_compute; discriminate|].
  split; reflexivity.
Qed.

Section PointerMove.
Context `{Constants}.
Import PianoRoll.

(** The timeline a pointer-move emits for a gesture started at [start] on
    [pitch], when the pointer is at [step], not before [start]. *)
Lemma rebuild_spec (allowed : nat -> bool) (melody : Melody) (pitch : string)
    (start step : nat) :
  start <= step ->
  let newMelody :=
    clear_loop (TOTAL_STEPS - S step) (S step)
      (extend_loop allowed (S step - S start) (S start)
         (js_set melody start (Some pitch))) in
  js_get newMelody start = Some pitch /\
  (forall j, start < j <= step ->
     (forall k, start < k <= j -> allowed k = true) ->
     js_get newMelody j = Some SUSTAIN_TOKEN) /\
  (forall j, start < j <= step ->
     (exists k, start < k <= j /\ allowed k = false) ->
     js_get newMelody j = js_get melody j) /\
  (forall j, step < j < TOTAL_STEPS ->
     (forall k, step < k <= j -> is_sustain (js_get melody k) = true) ->
     js_get newMelody j = None) /\
  (forall j, step < j ->
     (exists k, step < k <= j /\ is_sustain (js_get melody k) = false) ->
     js_get newMelody j = js_get melody j) /\
  (forall j, j < start -> js_get newMelody j = js_get melody j) /\
  (length melody = TOTAL_STEPS -> step < TOTAL_STEPS -> length newMelody = TOTAL_STEPS).
Proof.
  intros Hle newMelody. subst newMelody.
  set (written := js_set melody start (Some pitch)).
  set (extended := extend_loop allowed (S step - S start) (S start) written).
  assert (Hafter : forall k, step < k -> js_get extended k = js_get melody k).
  { intros k Hk. unfold extended. rewrite extend_loop_beyond by lia.
    apply js_get_set_ne. lia. }
  repeat split.
  - rewrite clear_loop_before by lia. unfold extended.
    rewrite extend_loop_before by lia. apply js_get_set_eq.
  - intros j Hj Hrun. rewrite clear_loop_before by lia.
    apply extend_loop_written; [lia|]. intros k Hk. apply Hrun. lia.
  - intros j Hj (k & Hk & Hstop). rewrite clear_loop_before by lia.
    unfold extended. rewrite extend_loop_kept.
    + apply js_get_set_ne. lia.
    + exists k. split; [lia | done].
  - intros j Hj Hrun. apply clear_loop_cleared; [lia|].
    intros k Hk. rewrite Hafter by lia. apply Hrun. lia.
  - intros j Hj (k & Hk & Hstop). rewrite clear_loop_kept.
    + apply Hafter. lia.
    + exists k. split; [lia|]. by rewrite Hafter by lia.
  - intros j Hj. rewrite clear_loop_before by lia. unfold extended.
    rewrite extend_loop_before by lia. apply js_get_set_ne. lia.
  - intros Hlen Hstep.
    assert (length written = TOTAL_STEPS) as Hw
      by (unfold written; rewrite js_set_length; lia).
    assert (length extended = TOTAL_STEPS) as He
      by (unfold extended; rewrite extend_loop_length; lia).
    rewrite clear_loop_length; lia.
Qed.

(** C2.  During an active gesture started at [startStep] on pitch [p], a
    pointer-move that finds step [s'] emits nothing and leaves the timeline
    as it is when [s' < startStep].  Otherwise it emits the timeline with [p]
    at [startStep]; the sustain marker at each step after [startStep] up to
    [s'] as long as [p] is allowed there, the slots from the first step where
    it is not allowed up to [s'] as before; the sustain markers that follow
    [s'], up to the first slot that is not one, empty; and every slot from
    that one on, like every slot before [startStep], as before.  On
    [null, null, "E4", "HOLD", "HOLD", null, null, null], a pointer-down on
    "E4" at step 4 grabs the note with [startStep = 2], and a move to step 3
    leaves "E4", "HOLD" at steps 2 and 3 and step 4 empty. *)
Theorem pointerMove_rebuilds_run (st : State) (d : DragState) (e : PointerMove) (s' : nat) :
  dragState st = Some d -> isActive d = true -> pointerStep st e = Z.of_nat s' ->
  (s' < startStep d ->
     (handleGridPointerMove st e).2 = [] /\
     melody (handleGridPointerMove st e).1 = melody st) /\
  (startStep d <= s' ->
     (handleGridPointerMove st e).2
     = [onSetMelody (melody (handleGridPointerMove st e).1)] /\
     js_get (melody (handleGridPointerMove st e).1) (startStep d) = Some (pitch d) /\
     (forall j, startStep d < j <= s' ->
        (forall k, startStep d < k <= j ->
           isNoteAllowed (noteMode st) (progression st) (pitch d) k = true) ->
        js_get (melody (handleGridPointerMove st e).1) j = Some SUSTAIN_TOKEN) /\
     (forall j, startStep d < j <= s' ->
        (exists k, startStep d < k <= j /\
           isNoteAllowed (noteMode st) (progression st) (pitch d) k = false) ->
        js_get (melody (handleGridPointerMove st e).1) j = js_get (melody st) j) /\
     (forall j, s' < j < TOTAL_STEPS ->
        (forall k, s' < k <= j -> is_sustain (js_get (melody st) k) = true) ->
        js_get (melody (handleGridPointerMove st e).1) j = None) /\
     (forall j, s' < j ->
        (exists k, s' < k <= j /\ is_sustain (js_get (melody st) k) = false) ->
        js_get (melody (handleGridPointerMove st e).1) j = js_get (melody st) j) /\
     (forall j, j < startStep d ->
        js_get (melody (handleGridPointerMove st e).1) j = js_get (melody st) j) /\
     (length (melody st) = TOTAL_STEPS -> s' < TOTAL_STEPS ->
      length (melody (handleGridPointerMove st e).1) = TOTAL_STEPS)) /\
  (forall noteMode,
     @handleGridPointerDown one_bar_constants (idle_view noteMode scenarioC_timeline)
       (pointerDownOn 4 "E4")
     = (grabbed_view noteMode, []) /\
     (@handleGridPointerMove one_bar_constants (grabbed_view noteMode) (pointerMoveTo 3)).2
     = [onSetMelody scenarioC_result]).
Proof.
  intros Hd Hactive Hstep.
  unfold handleGridPointerMove. rewrite Hd, Hactive, Hstep. simpl.
  destruct (Z.eqb_spec (Z.of_nat s') (-1)) as [|_]; [lia|].
  split; [|split].
  - intros Hlt. destruct (Z.ltb_spec (Z.of_nat s') (Z.of_nat (startStep d))); [done | lia].
  - intros Hle. destruct (Z.ltb_spec (Z.of_nat s') (Z.of_nat (startStep d))); [lia|].
    rewrite Nat2Z.id. simpl. split; [done|].
    by apply rebuild_spec.
  - intros []; split; vm_compute; reflexivity.
Qed.

End PointerMove.

Lemma pointerMove_rebuilds_run_witness :
  PianoRoll.dragState (grabbed_view chord) = Some grabbed_drag /\
  PianoRoll.isActive grabbed_drag = true /\
  @PianoRoll.pointerStep one_bar_constants (grabbed_view chord) (pointerMoveTo 3) = Z.of_nat 3 /\
  PianoRoll.startStep grabbed_drag <= 3 /\
  js_get (PianoRoll.melody
            (@PianoRoll.handleGridPointerMove one_bar_constants
               (grabbed_view chord) (pointerMoveTo 3)).1)
         (PianoRoll.startStep grabbed_drag)
  = Some (PianoRoll.pitch grabbed_drag).
Proof.
  assert (Hle : PianoRoll.startStep grabbed_drag <= 3) by (simpl; lia).
  split; [reflexivity|]. split; [reflexivity|]. split; [reflexivity|].
  split; [exact Hle|].
  pose proof (@pointerMove_rebuilds_run one_bar_constants (grabbed_view chord)
                grabbed_drag (pointerMoveTo 3) 3 eq_refl eq_refl eq_refl) as (_ & Hfwd & _).
  exact (proj1 (proj2 (Hfwd Hle))).
Defined.

(** ** Playback *)

Section SequenceCallback.
Context `{Constants}.
Import AudioService.

(** The duration loop, run to the end of the timeline, counts the sustain
    markers at the front of what is left of it. *)
Lemma duration_loop_sustain_run (melody : Melody) (n : nat) :
  forall i durationSteps,
    n = length melody - i ->
    duration_loop melody n i durationSteps
    = durationSteps + sustain_run (drop i melody).
Proof.
  induction n as [|n IH]; intros i durationSteps Hn; simpl.
  - rewrite drop_ge by lia. simpl. lia.
  - assert (Hi : i < length melody) by lia.
    rewrite (drop_S melody (js_get melody i) i) by (by apply js_get_eq_lookup).
    simpl. destruct (is_sustain (js_get melody i)); [|lia].
    rewrite IH by lia. lia.
Qed.

(** [init] creates the melody synthesizer before the sequence whose callback
    reads it. *)
Lemma init_creates_synth (st : State) :
  isInitialized st = false ->
  synth (init st) = Some [] /\ sequence (init st) = true /\ isInitialized (init st) = true.
Proof. intros Hinit. unfold init. rewrite Hinit. done. Qed.

Lemma triggerChord_no_melody (st : State) (barIndex : nat) :
  melody_notes (triggerChord st barIndex).2 = [].
Proof.
  unfold triggerChord.
  destruct (chordSynth st), (progression st) as [prog|]; try done.
  destruct (prog !! barIndex); done.
Qed.

(** C7.  At the callback of step [i], with the melody synthesizer in place:
    when slot [i] of the timeline holds a concrete pitch, exactly one melody
    note is triggered, of that pitch, lasting one step more than the number
    of sustain markers that follow [i] without a gap; when the slot is a
    sustain marker or empty, no melody note is triggered. *)
Theorem onSequenceStep_melody_note (st : State) (i : nat) (voices : Tone.PolySynth) :
  synth st = Some voices ->
  (forall p, js_get (melody st) i = Some p -> is_pitch (Some p) = true ->
     melody_notes (onSequenceStep st i).2
     = [(p, 1 + sustain_run (drop (S i) (melody st)))]) /\
  (is_pitch (js_get (melody st) i) = false ->
     melody_notes (onSequenceStep st i).2 = []).
Proof.
  intros Hsynth.
  assert (Hchord : forall st' : State,
    melody_notes
      (match chordSynth st', progression st' with
       | Some _, Some _ =>
           if isChordEnabled st' && Nat.eqb (i mod STEPS_PER_BAR) 0
           then triggerChord st' (i / STEPS_PER_BAR) else (st', [])
       | _, _ => (st', [])
       end).2 = []).
  { intros st'. destruct (chordSynth st'), (progression st'); try done.
    destruct (_ && _); [apply triggerChord_no_melody | done]. }
  assert (Hcb : forall b : bool, melody_notes (if b then [stepCallback i] else []) = []).
  { by intros []. }
  unfold onSequenceStep. simpl. rewrite Hsynth. split.
  - intros p Hp Hpitch. rewrite Hp. unfold is_pitch in Hpitch. rewrite Hpitch.
    match goal with |- context [match ?c with Some _ => _ | None => _ end] =>
      specialize (Hchord (with_synths (with_currentStepIndex st i)
                            (Some (Tone.triggerAttackRelease voices [p]))
                            (chordSynth (with_currentStepIndex st i))))
    end.
    simpl in Hchord.
    destruct (match chordSynth st with Some _ => _ | None => _ end) as [st2 calls2].
    cbv [snd] in *. unfold melody_notes in *. rewrite !omap_app, Hcb, Hchord. simpl.
    rewrite duration_loop_sustain_run by lia. done.
  - intros Hnot. unfold is_pitch in Hnot.
    destruct (js_get (melody st) i) as [p|] eqn:Hp.
    + rewrite Hnot. specialize (Hchord (with_currentStepIndex st i)). simpl in Hchord.
      destruct (match chordSynth st with Some _ => _ | None => _ end) as [st2 calls2].
      cbv [snd] in *. unfold melody_notes in *. rewrite !omap_app, Hcb, Hchord. done.
    + specialize (Hchord (with_currentStepIndex st i)). simpl in Hchord.
      destruct (match chordSynth st with Some _ => _ | None => _ end) as [st2 calls2].
      cbv [snd] in *. unfold melody_notes in *. rewrite !omap_app, Hcb, Hchord. done.
Qed.

End SequenceCallback.

Lemma onSequenceStep_melody_note_witness :
  AudioService.synth loaded_service = Some [] /\
  js_get (AudioService.melody loaded_service) 2 = Some "C4" /\
  is_pitch (Some "C4") = true /\
  melody_notes (@AudioService.onSequenceStep one_bar_constants loaded_service 2).2
  = [("C4", 1 + sustain_run (drop 3 (AudioService.melody loaded_service)))].
Proof.
  split; [reflexivity|]. split; [reflexivity|]. split; [reflexivity|].
  exact (proj1 (@onSequenceStep_melody_note one_bar_constants loaded_service 2 []
                  eq_refl) "C4" eq_refl eq_refl).
Defined.

Section Transport.
Import AudioService.

Lemma releaseAll_sounding (svc : State) : sounding (releaseAll svc) = [].
Proof. unfold sounding, releaseAll. simpl. by destruct (synth svc), (chordSynth svc). Qed.

Lemma pause_idempotent (svc : State) : pause (pause svc) = pause svc.
Proof.
  unfold pause, releaseAll, with_Transport_state, with_synths. simpl.
  by destruct (synth svc), (chordSynth svc), (Transport_state svc).
Qed.

Lemma stop_idempotent (svc : State) : stop (stop svc) = stop svc.
Proof.
  unfold stop, releaseAll, with_currentStepIndex, with_Transport_state, with_synths.
  simpl. by destruct (synth svc), (chordSynth svc).
Qed.

Lemma play_idempotent (svc : State) : play (play svc) = play svc.
Proof.
  destruct svc as [? ? ? ? ? initialized ? ? ? transport ?]. unfold play, init. simpl.
  by destruct initialized, transport.
Qed.

(** C8.  Stopping sets the step the view reports to [-1], none, and leaves no
    voice sounding; the service's own step index goes back to 0 and the
    transport is stopped.  Pausing leaves no voice sounding and keeps the
    step, in the service and in the view.  Playing, pausing and stopping are
    idempotent; on a transport already in the state asked for they change
    neither the transport nor, for play and pause, the step. *)
Theorem transport_controls (view : MonoMelody.State) (svc : State) :
  (MonoMelody.currentStep (MonoMelody.handleStop view) = (-1)%Z /\
   MonoMelody.isPlaying (MonoMelody.handleStop view) = false /\
   sounding (MonoMelody.audioService (MonoMelody.handleStop view)) = [] /\
   sounding (stop svc) = [] /\
   currentStepIndex (stop svc) = 0 /\
   Transport_state (stop svc) = Tone.stopped) /\
  (sounding (pause svc) = [] /\
   currentStepIndex (pause svc) = currentStepIndex svc /\
   (Transport_state svc = Tone.started -> Transport_state (pause svc) = Tone.paused) /\
   (MonoMelody.isPlaying view = true ->
    MonoMelody.currentStep (MonoMelody.handlePlayPause view) = MonoMelody.currentStep view /\
    sounding (MonoMelody.audioService (MonoMelody.handlePlayPause view)) = [] /\
    currentStepIndex (MonoMelody.audioService (MonoMelody.handlePlayPause view))
    = currentStepIndex (MonoMelody.audioService view))) /\
  (play (play svc) = play svc /\
   pause (pause svc) = pause svc /\
   stop (stop svc) = stop svc /\
   MonoMelody.handleStop (MonoMelody.handleStop view) = MonoMelody.handleStop view) /\
  (Transport_state svc = Tone.started ->
   Transport_state (play svc) = Tone.started /\
   currentStepIndex (play svc) = currentStepIndex svc /\
   (isInitialized svc = true -> play svc = svc)) /\
  (Transport_state svc = Tone.paused ->
   Transport_state (pause svc) = Tone.paused /\
   currentStepIndex (pause svc) = currentStepIndex svc) /\
  (Transport_state svc = Tone.stopped -> Transport_state (stop svc) = Tone.stopped).
Proof.
  split; [|split; [|split; [|split; [|split]]]].
  - split; [done|]. split; [done|]. split; [apply releaseAll_sounding|].
    split; [apply releaseAll_sounding | done].
  - split; [apply releaseAll_sounding|]. split; [done|].
    split; [intros Hstarted; unfold pause; simpl; by rewrite Hstarted|].
    intros Hplaying. unfold MonoMelody.handlePlayPause. rewrite Hplaying. simpl.
    split; [done|]. split; [apply releaseAll_sounding|].
    unfold init. by destruct (isInitialized (MonoMelody.audioService view)).
  - split; [apply play_idempotent|]. split; [apply pause_idempotent|].
    split; [apply stop_idempotent|].
    unfold MonoMelody.handleStop. simpl. by rewrite stop_idempotent.
  - intros Hstarted. unfold play, init.
    destruct (isInitialized svc) eqn:Hi; simpl; rewrite Hstarted.
    + split; [done|]. split; [done|]. intros _.
      destruct svc; simpl in *. by subst.
    + split; [done|]. split; [done|]. discriminate.
  - intros Hpaused. unfold pause. simpl. by rewrite Hpaused.
  - done.
Qed.

End Transport.

Lemma transport_controls_witness :
  MonoMelody.isPlaying playing_view = true /\
  AudioService.Transport_state playing_service = Tone.started /\
  AudioService.sounding playing_service = ["C4"] /\
  MonoMelody.currentStep (MonoMelody.handleStop playing_view) = (-1)%Z /\
  AudioService.sounding
    (MonoMelody.audioService (MonoMelody.handlePlayPause playing_view)) = [] /\
  MonoMelody.currentStep (MonoMelody.handlePlayPause playing_view) = 2%Z /\
  AudioService.play playing_service = playing_service.
Proof.
  split; [reflexivity|]. split; [reflexivity|]. split; [reflexivity|].
  pose proof (transport_controls playing_view playing_service)
    as (Hstop & Hpause & _ & Hplay & _).
  split; [exact (proj1 Hstop)|].
  destruct (proj2 (proj2 (proj2 Hpause)) eq_refl) as (Hstep & Hsilent & _).
  split; [exact Hsilent|]. split; [exact Hstep|].
  exact (proj2 (proj2 (Hplay eq_refl)) eq_refl).
Defined.

(** * Further properties of the code *)

(** ** Notes in the resolved timeline *)

Section NotesResolved.
Context `{Constants}.
Import PianoRoll.

Lemma resolvedMelody_in_range (melody : Melody) (i : nat) (t : string) :
  js_get (resolvedMelody melody) i = Some t -> i < TOTAL_STEPS.
Proof.
  intros Ht. destruct (decide (i < TOTAL_STEPS)) as [|Hge]; [done|].
  rewrite js_get_ge in Ht by (rewrite resolvedMelody_length; lia). discriminate.
Qed.

(** Over a head and the sustain markers after it, the head sounds. *)
Lemma sounding_at_run (timeline : Melody) (h n : nat) :
  is_pitch (js_get timeline h) = true ->
  (forall k, h < k <= h + n -> is_sustain (js_get timeline k) = true) ->
  forall k, k <= n -> sounding_at timeline (h + k) = js_get timeline h.
Proof.
  intros Hhead Hrun k. induction k as [|k IH]; intros Hk.
  - rewrite Nat.add_0_r. by apply sounding_at_pitch.
  - replace (h + S k) with (S (h + k)) by lia.
    rewrite sounding_at_sustain by (apply Hrun; lia). apply IH. lia.
Qed.

Lemma sounding_at_not_sustain (timeline : Melody) (i : nat) :
  is_sustain (js_get timeline i) = false ->
  sounding_at timeline i
  = if is_pitch (js_get timeline i) then js_get timeline i else None.
Proof. intros Hs. destruct i; simpl; by rewrite Hs. Qed.

(** A note, a head followed by [n] sustain markers, resolves to the pitch of
    its head on each of its [n + 1] steps; a slot that is not a sustain
    marker never inherits a pitch: it resolves to its own pitch, or to
    nothing. *)
Theorem resolvedMelody_note_run (timeline : Melody) (h n : nat) :
  h + n < TOTAL_STEPS ->
  is_pitch (js_get timeline h) = true ->
  (forall k, h < k <= h + n -> is_sustain (js_get timeline k) = true) ->
  (forall k, k <= n -> js_get (resolvedMelody timeline) (h + k) = js_get timeline h) /\
  (forall i, i < TOTAL_STEPS -> is_sustain (js_get timeline i) = false ->
     js_get (resolvedMelody timeline) i
     = if is_pitch (js_get timeline i) then js_get timeline i else None).
Proof.
  intros Hend Hhead Hrun. split.
  - intros k Hk. rewrite resolvedMelody_sounding by lia.
    by apply (sounding_at_run timeline h n).
  - intros i Hi Hs. rewrite resolvedMelody_sounding by done.
    by apply sounding_at_not_sustain.
Qed.

(** From a step where a pitch sounds, walking back over the sustain markers
    ends on the head that holds that pitch. *)
Lemma walk_back_head (melody : Melody) (p : string) :
  forall step, sounding_at melody step = Some p ->
    walk_back melody step <= step /\
    js_get melody (walk_back melody step) = Some p /\
    forall k, walk_back melody step < k <= step -> is_sustain (js_get melody k) = true.
Proof.
  induction step as [|step IH]; intros Hsound.
  - simpl in *. split; [lia|]. split; [|intros k Hk; lia].
    destruct (is_sustain (js_get melody 0)); [discriminate|].
    destruct (is_pitch (js_get melody 0)); [done | discriminate].
  - simpl in *. destruct (is_sustain (js_get melody (S step))) eqn:Hs.
    + destruct (IH Hsound) as (Hle & Hhead & Hrun).
      split; [lia|]. split; [done|]. intros k Hk.
      destruct (decide (k = S step)) as [->|Hne]; [done|]. apply Hrun. lia.
    + split; [lia|]. split; [|intros k Hk; lia].
      destruct (is_pitch (js_get melody (S step))); [done | discriminate].
Qed.

(** A pointer-down on an allowed cell where its own pitch already sounds
    grabs the note: nothing is emitted and the timeline stays; the gesture is
    in resize mode, not yet moved, and starts at the head of the note, which
    holds the pitch and is followed by sustain markers up to the cell. *)
Theorem pointerDown_grabs_head (st : State) (e : PointerDown) (cell : Cell) :
  target e = Some cell ->
  isNoteAllowed (noteMode st) (progression st) (data_pitch cell) (data_step cell) = true ->
  js_get (resolvedMelody (melody st)) (data_step cell) = Some (data_pitch cell) ->
  (handleGridPointerDown st e).2 = [] /\
  melody (handleGridPointerDown st e).1 = melody st /\
  exists head,
    dragState (handleGridPointerDown st e).1
    = Some {| isActive := true; startStep := head; pitch := data_pitch cell;
              mode := resize; hasMoved := false |} /\
    head <= data_step cell /\
    js_get (melody st) head = Some (data_pitch cell) /\
    forall k, head < k <= data_step cell -> is_sustain (js_get (melody st) k) = true.
Proof.
  intros Htarget Hallowed Hsame.
  assert (Hsound : sounding_at (melody st) (data_step cell) = Some (data_pitch cell)).
  { rewrite <- resolvedMelody_sounding; [done|].
    by apply (resolvedMelody_in_range (melody st) _ (data_pitch cell)). }
  unfold handleGridPointerDown. rewrite Htarget. simpl. rewrite Hallowed. simpl.
  rewrite Hsame. simpl. rewrite String.eqb_refl. simpl.
  split; [done|]. split; [done|].
  exists (walk_back (melody st) (data_step cell)). split; [done|].
  by apply walk_back_head.
Qed.

(** The block drawn in a cell of a pitch row is the head of a note or part of
    its tail, never both; it is a head exactly when the slot itself holds the
    pitch of the row; and one step never shows a block on two rows. *)
Theorem cell_head_or_tail (melody : Melody) (pitch : string) (stepIndex : nat) :
  is_pitch (Some pitch) = true ->
  (cell_isActive melody pitch stepIndex = true ->
     cell_isHead melody pitch stepIndex = negb (cell_isTail melody pitch stepIndex)) /\
  (stepIndex < TOTAL_STEPS ->
     (cell_isHead melody pitch stepIndex = true <-> js_get melody stepIndex = Some pitch)) /\
  (forall other, other <> pitch ->
     cell_isActive melody pitch stepIndex = true ->
     cell_isActive melody other stepIndex = false).
Proof.
  intros Hpitch. split; [|split].
  - intros Hactive. unfold cell_isHead, cell_isTail. rewrite Hactive. simpl.
    unfold cell_isActive in Hactive. apply token_eqb_spec in Hactive.
    pose proof (resolvedMelody_in_range _ _ _ Hactive) as Hi.
    rewrite resolvedMelody_sounding in Hactive by done.
    destruct (is_sustain (js_get melody stepIndex)) eqn:Hs; simpl.
    + apply is_sustain_spec in Hs. rewrite Hs.
      apply is_pitch_not_sustain in Hpitch.
      change (String.eqb SUSTAIN_TOKEN pitch = false).
      rewrite String.eqb_sym. exact Hpitch.
    + rewrite sounding_at_not_sustain in Hactive by done.
      destruct (is_pitch (js_get melody stepIndex)); [|discriminate].
      by apply token_eqb_spec.
  - intros Hi. unfold cell_isHead, cell_isActive.
    rewrite resolvedMelody_sounding by done. split.
    + intros Hhead. apply andb_true_iff in Hhead as [_ Hraw].
      by apply token_eqb_spec.
    + intros Hraw. rewrite sounding_at_pitch by (by rewrite Hraw).
      rewrite Hraw. simpl. by rewrite String.eqb_refl.
  - intros other Hother Hactive. unfold cell_isActive in *.
    apply token_eqb_spec in Hactive. rewrite Hactive. simpl.
    by apply String.eqb_neq.
Qed.

End NotesResolved.

(** ** What the handlers keep *)

Lemma is_pitch_Some (p : string) :
  is_pitch (Some p) = true ->
  is_sustain (Some p) = false /\ is_empty (Some p) = false.
Proof.
  intros Hp. destruct (slot_cases (Some p)) as [(?&?&?)|[(?&?&?)|(?&?&?)]]; by try congruence.
Qed.

Lemma is_sustain_not_empty (t : Token) : is_sustain t = true -> is_empty t = false.
Proof.
  intros Hs. destruct (slot_cases t) as [(?&?&?)|[(?&?&?)|(?&?&?)]]; by try congruence.
Qed.

Lemma PITCH_ROWS_pitches (p : string) : p ∈ PITCH_ROWS -> is_pitch (Some p) = true.
Proof.
  assert (Hall : forallb (fun p => is_pitch (Some p)) PITCH_ROWS = true) by reflexivity.
  intros Hin. apply list_elem_of_In in Hin.
  exact (proj1 (forallb_forall _ _) Hall p Hin).
Qed.

(** Over the steps after [lo] up to [hi], a test holds throughout or fails
    somewhere. *)
Lemma bounded_cases (f : nat -> bool) (lo : nat) :
  forall hi,
    (forall k, lo < k <= hi -> f k = true) \/ (exists k, lo < k <= hi /\ f k = false).
Proof.
  induction hi as [|hi [IH|(k & Hk & Hf)]].
  - left. intros k Hk. lia.
  - destruct (f (S hi)) eqn:Hf.
    + left. intros k Hk. destruct (decide (k = S hi)) as [->|]; [done|]. apply IH. lia.
    + destruct (decide (lo < S hi)) as [Hlo|Hlo].
      * right. exists (S hi). split; [lia | done].
      * left. intros k Hk. lia.
  - right. exists k. split; [lia | done].
Qed.

Section Invariant.
Context `{Constants}.
Import PianoRoll.

Lemma walk_back_le (melody : Melody) (ptr : nat) : walk_back melody ptr <= ptr.
Proof.
  induction ptr as [|ptr IH]; simpl; [lia|].
  destruct (is_sustain (js_get melody (S ptr))); lia.
Qed.

Lemma headed_write_pitch (melody : Melody) (step : nat) (p : string) :
  headed melody -> is_pitch (Some p) = true -> headed (js_set melody step (Some p)).
Proof.
  intros Hh Hp i Hi. destruct (is_pitch_Some p Hp) as [Hns Hne].
  destruct (decide (i = step)) as [->|Hi_ne].
  { rewrite js_get_set_eq in Hi. congruence. }
  rewrite js_get_set_ne in Hi by done.
  destruct (Hh i Hi) as (j & -> & Hj). exists j. split; [done|].
  destruct (decide (j = step)) as [->|Hj_ne].
  - by rewrite js_get_set_eq.
  - by rewrite js_get_set_ne.
Qed.

Lemma headed_rebuild (allowed : nat -> bool) (melody : Melody) (p : string)
    (start step : nat) :
  headed melody -> length melody = TOTAL_STEPS -> start <= step < TOTAL_STEPS ->
  is_pitch (Some p) = true ->
  headed (clear_loop (TOTAL_STEPS - S step) (S step)
            (extend_loop allowed (S step - S start) (S start)
               (js_set melody start (Some p)))).
Proof.
  intros Hh Hlen [Hle Hlt] Hp.
  destruct (rebuild_spec allowed melody p start step Hle)
    as (Hstart & Hwritten & Hkept & Hcleared & Hafter & Hbefore & Hlength).
  destruct (is_pitch_Some p Hp) as [Hns Hne].
  intros i Hi.
  destruct (decide (i = start)) as [->|Hi_start]; [rewrite Hstart in Hi; congruence|].
  destruct (decide (i < start)) as [Hi_lt|Hi_ge].
  { rewrite Hbefore in Hi by done. destruct (Hh i Hi) as (j & -> & Hj).
    exists j. split; [done|]. by rewrite Hbefore by lia. }
  destruct i as [|j]; [lia|]. exists j. split; [done|].
  destruct (decide (S j <= step)) as [Hin|Hout].
  - destruct (decide (j = start)) as [->|Hj_start]; [by rewrite Hstart|].
    destruct (bounded_cases allowed start j) as [Hall|(k & Hk & Hstop)].
    + rewrite Hwritten by (done || lia). done.
    + assert (Hex : exists k, start < k <= S j /\ allowed k = false)
        by (exists k; split; [lia | done]).
      rewrite Hkept in Hi by (done || lia).
      rewrite Hkept by (lia || (exists k; split; [lia | done])).
      destruct (Hh (S j) Hi) as (j' & Hj' & Hnonempty).
      by replace j with j' by lia.
  - destruct (decide (S j < TOTAL_STEPS)) as [Hin_tl|Hout_tl].
    + destruct (bounded_cases (fun k => is_sustain (js_get melody k)) step (S j))
        as [Hall|(k & Hk & Hstop)].
      * rewrite Hcleared in Hi by (done || lia). discriminate.
      * rewrite Hafter in Hi by (lia || (exists k; split; [lia | done])).
        assert (k <> S j) by congruence.
        rewrite Hafter by (lia || (exists k; split; [lia | done])).
        destruct (Hh (S j) Hi) as (j' & Hj' & Hnonempty).
        by replace j with j' by lia.
    + rewrite js_get_ge in Hi by (rewrite Hlength; [lia | done | lia]). discriminate.
Qed.

Lemma headed_delete (melody : Melody) (start : nat) :
  headed melody -> length melody = TOTAL_STEPS -> start < TOTAL_STEPS ->
  headed (clear_loop (TOTAL_STEPS - S start) (S start) (js_set melody start None)).
Proof.
  intros Hh Hlen Hlt.
  destruct (delete_spec melody start) as (Hstart & Hcleared & Hafter & Hbefore & Hlength).
  intros i Hi.
  destruct (decide (i = start)) as [->|Hi_start]; [rewrite Hstart in Hi; discriminate|].
  destruct (decide (i < start)) as [Hi_lt|Hi_ge].
  { rewrite Hbefore in Hi by done. destruct (Hh i Hi) as (j & -> & Hj).
    exists j. split; [done|]. by rewrite Hbefore by lia. }
  destruct i as [|j]; [lia|]. exists j. split; [done|].
  destruct (decide (S j < TOTAL_STEPS)) as [Hin_tl|Hout_tl].
  - destruct (bounded_cases (fun k => is_sustain (js_get melody k)) start (S j))
      as [Hall|(k & Hk & Hstop)].
    + rewrite Hcleared in Hi by (done || lia). discriminate.
    + rewrite Hafter in Hi by (lia || (exists k; split; [lia | done])).
      assert (k <> S j) by congruence.
      rewrite Hafter by (lia || (exists k; split; [lia | done])).
      destruct (Hh (S j) Hi) as (j' & Hj' & Hnonempty).
      by replace j with j' by lia.
  - rewrite js_get_ge in Hi by (rewrite Hlength; [lia | done | lia]). discriminate.
Qed.

(** During a gesture, a pointer-move on the grid finds no step or a step of
    the timeline. *)
Lemma pointerStep_in_timeline (st : State) (e : PointerMove) :
  0 < TOTAL_STEPS -> dom_event (PointerMoveEvent e) ->
  pointerStep st e = (-1)%Z \/ (0 <= pointerStep st e < Z.of_nat TOTAL_STEPS)%Z.
Proof.
  intros Hpos Hdom. unfold pointerStep.
  destruct (dragMetrics st) as [m|]; [right; lia|].
  destruct (elementFromPoint e) as [c|] eqn:Hc; [|by left].
  right. destruct (Hdom c Hc) as [Hstep _]. lia.
Qed.

End Invariant.

Section InvariantKept.
Context `{Constants}.
Import PianoRoll.

Lemma handle_invariant (st : State) (ev : Event) :
  view_invariant st -> dom_event ev -> view_invariant (handle st ev).1.
Proof.
  intros Hinv Hdom. pose proof Hinv as (Hlen & Hh & Hdrag).
  assert (Hidle : view_invariant (with_dragMetrics (with_dragState st None) None)).
  { split; [done|]. split; [done|]. intros d Hd. discriminate. }
  assert (Hup : view_invariant (handleGridPointerUp st).1).
  { unfold handleGridPointerUp. destruct (dragState st) as [d|] eqn:Hd; [|exact Hidle].
    destruct (Hdrag d eq_refl) as [Hstart Hp].
    destruct (mode d), (hasMoved d); try exact Hidle.
    split; [|split; [by apply headed_delete | intros d' Hd'; discriminate]].
    destruct (delete_spec (melody st) (startStep d)) as (_ & _ & _ & _ & Hlength).
    by apply Hlength. }
  destruct ev as [e|e| |]; [| |exact Hup|exact Hup].
  - simpl. unfold handleGridPointerDown.
    destruct (target e) as [cell|] eqn:Hcell; [|exact Hinv].
    destruct (Hdom cell Hcell) as [Hstep Hrow]. apply PITCH_ROWS_pitches in Hrow.
    simpl. destruct (isNoteAllowed _ _ _ _); simpl; [|exact Hinv].
    destruct (token_eqb _ _).
    + split; [done|]. split; [done|]. intros d [= <-]. simpl.
      split; [|done]. pose proof (walk_back_le (melody st) (data_step cell)). lia.
    + split; [simpl; rewrite js_set_length; lia|].
      split; [by apply headed_write_pitch|].
      intros d [= <-]. done.
  - simpl. unfold handleGridPointerMove.
    destruct (dragState st) as [d|] eqn:Hd; [|exact Hinv].
    destruct (Hdrag d eq_refl) as [Hstart Hp].
    destruct (isActive d); simpl; [|exact Hinv].
    destruct (Z.eqb_spec (pointerStep st e) (-1)) as [|Hfound]; [exact Hinv|].
    destruct (Z.ltb_spec (pointerStep st e) (Z.of_nat (startStep d))) as [Hback|Hfwd].
    + split; [done|]. split; [done|]. intros d' [= <-]. done.
    + destruct (pointerStep_in_timeline st e) as [|Hrange]; [lia | done | done |].
      split; [|split].
      * destruct (rebuild_spec (isNoteAllowed (noteMode st) (progression st) (pitch d))
                    (melody st) (pitch d) (startStep d) (Z.to_nat (pointerStep st e)))
          as (_ & _ & _ & _ & _ & _ & Hlength); [lia|].
        apply Hlength; [done | lia].
      * apply headed_rebuild; [done | done | lia | done].
      * intros d' [= <-]. done.
Qed.

Lemma run_invariant (evs : list Event) :
  forall st, view_invariant st -> Forall dom_event evs -> view_invariant (run st evs).1.
Proof.
  induction evs as [|ev evs IH]; intros st Hinv Hdom; simpl; [done|].
  apply Forall_cons in Hdom as [Hev Hevs].
  pose proof (handle_invariant st ev Hinv Hev) as Hinv1.
  destruct (handle st ev) as [st1 calls1]. simpl in Hinv1.
  specialize (IH st1 Hinv1 Hevs). by destruct (run st1 evs).
Qed.

(** Whatever the note mode and the progression, every handler of the grid,
    on an event that comes from cells the grid renders, keeps the timeline at
    [TOTAL_STEPS] slots with every sustain marker right after a pitch or
    another sustain marker, and keeps the gesture, if any, started inside the
    timeline on a concrete pitch; so does every run of such events. *)
Theorem handlers_keep_invariant (st : State) :
  view_invariant st ->
  (forall ev, dom_event ev -> view_invariant (handle st ev).1) /\
  (forall evs, Forall dom_event evs -> view_invariant (run st evs).1).
Proof.
  intros Hinv. split.
  - intros ev Hev. by apply handle_invariant.
  - intros evs Hevs. by apply run_invariant.
Qed.

(** In a timeline whose sustain markers are headed, a pitch sounds at every
    sustain marker. *)
Lemma headed_sounding (timeline : Melody) :
  headed timeline ->
  forall i, is_sustain (js_get timeline i) = true ->
    is_pitch (sounding_at timeline i) = true.
Proof.
  intros Hh. induction i as [|i IH]; intros Hs.
  - destruct (Hh 0 Hs) as (j & Hj & _). lia.
  - rewrite sounding_at_sustain by done.
    destruct (Hh (S i) Hs) as (j & Hj & Hne). assert (j = i) as -> by lia.
    destruct (slot_cases (js_get timeline i)) as [(Hsi&_&_)|[(_&Hpi&_)|(_&_&?)]].
    + by apply IH.
    + by rewrite sounding_at_pitch.
    + congruence.
Qed.

(** Starting from the empty timeline with no gesture, after any run of
    pointer events on cells of the grid the timeline still has [TOTAL_STEPS]
    slots, and the resolved timeline has a pitch at every step that holds a
    sustain marker: editing never leaves a sustain marker without a head. *)
Theorem run_from_empty_headed (st : State) (evs : list Event) :
  melody st = replicate TOTAL_STEPS None -> dragState st = None ->
  Forall dom_event evs ->
  length (melody (run st evs).1) = TOTAL_STEPS /\
  forall i, is_sustain (js_get (melody (run st evs).1) i) = true ->
    is_pitch (js_get (resolvedMelody (melody (run st evs).1)) i) = true.
Proof.
  intros Hempty Hidle Hdom.
  assert (Hinv : view_invariant st).
  { split; [by rewrite Hempty, length_replicate|]. split.
    - intros i Hi. rewrite Hempty in Hi. unfold js_get in Hi.
      destruct (replicate TOTAL_STEPS None !! i) as [t|] eqn:Ht; [|discriminate].
      apply lookup_replicate_1 in Ht as [-> _]. discriminate.
    - intros d Hd. congruence. }
  destruct (run_invariant evs st Hinv Hdom) as (Hlen & Hh & _).
  split; [done|]. intros i Hi.
  assert (i < TOTAL_STEPS).
  { destruct (decide (i < TOTAL_STEPS)) as [|Hge]; [done|].
    rewrite js_get_ge in Hi by lia. discriminate. }
  rewrite resolvedMelody_sounding by done. by apply headed_sounding.
Qed.

End InvariantKept.

(** ** Gestures as a whole *)

(** Two arrays of one length that read alike are equal. *)
Lemma js_get_ext (a b : Melody) :
  length a = length b -> (forall i, i < length a -> js_get a i = js_get b i) -> a = b.
Proof.
  intros Hlen Hget. apply list_eq. intros i.
  destruct (decide (i < length a)) as [Hi|Hi].
  - rewrite (js_get_eq_lookup a i), (js_get_eq_lookup b i) by lia.
    f_equal. by apply Hget.
  - rewrite !lookup_ge_None_2; [done | lia | lia].
Qed.

Section Gestures.
Context `{Constants}.
Import PianoRoll.



(** Rebuilding a run again from its own result changes nothing. *)
Lemma rebuild_stable (allowed : nat -> bool) (melody : Melody) (p : string)
    (start step : nat) :
  length melody = TOTAL_STEPS -> start <= step < TOTAL_STEPS ->
  let rebuild m :=
    clear_loop (TOTAL_STEPS - S step) (S step)
      (extend_loop allowed (S step - S start) (S start) (js_set m start (Some p))) in
  rebuild (rebuild melody) = rebuild melody.
Proof.
  intros Hlen [Hle Hlt] rebuild.
  destruct (rebuild_spec allowed melody p start step Hle)
    as (Hstart & Hwritten & Hkept & Hcleared & Hafter & Hbefore & Hlength).
  fold (rebuild melody) in Hstart, Hwritten, Hkept, Hcleared, Hafter, Hbefore, Hlength.
  specialize (Hlength Hlen Hlt).
  destruct (rebuild_spec allowed (rebuild melody) p start step Hle)
    as (Hstart' & Hwritten' & Hkept' & Hcleared' & Hafter' & Hbefore' & Hlength').
  fold (rebuild (rebuild melody))
    in Hstart', Hwritten', Hkept', Hcleared', Hafter', Hbefore', Hlength'.
  specialize (Hlength' Hlength Hlt).
  apply js_get_ext; [congruence|]. rewrite Hlength'. intros i Hi.
  destruct (decide (i < start)) as [|Hge]; [by apply Hbefore'|].
  destruct (decide (i = start)) as [->|Hne]; [congruence|].
  destruct (decide (i <= step)) as [Hin|Hout].
  - destruct (bounded_cases allowed start i) as [Hall|Hex].
    + rewrite Hwritten', Hwritten by (done || lia). done.
    + apply Hkept'; [lia | done].
  - destruct (bounded_cases (fun k => is_sustain (js_get (rebuild melody) k)) step i)
      as [Hall|Hex]; [|apply Hafter'; [lia | done]].
    exfalso. specialize (Hall (S step) ltac:(lia)). simpl in Hall.
    destruct (is_sustain (js_get melody (S step))) eqn:Hnext.
    + rewrite Hcleared in Hall; [discriminate | lia |].
      intros k Hk. by replace k with (S step) by lia.
    + rewrite Hafter in Hall; [congruence | lia |].
      exists (S step). split; [lia | done].
Qed.

(** A pointer-move repeated at the same place changes nothing more: the
    second move emits the timeline the first one left and leaves the state as
    it is. *)
Theorem pointerMove_repeated (st : State) (d : DragState) (e : PointerMove) (s' : nat) :
  dragState st = Some d -> isActive d = true -> pointerStep st e = Z.of_nat s' ->
  length (melody st) = TOTAL_STEPS -> startStep d <= s' < TOTAL_STEPS ->
  handleGridPointerMove (handleGridPointerMove st e).1 e
  = ((handleGridPointerMove st e).1,
     [onSetMelody (melody (handleGridPointerMove st e).1)]).
Proof.
  intros Hd Hactive Hstep Hlen Hrange.
  assert (Hfirst : exists m,
    handleGridPointerMove st e
    = (with_dragState (with_melody st m) (Some (with_hasMoved d true)), [onSetMelody m]) /\
    m = clear_loop (TOTAL_STEPS - S s') (S s')
          (extend_loop (isNoteAllowed (noteMode st) (progression st) (pitch d))
             (S s' - S (startStep d)) (S (startStep d))
             (js_set (melody st) (startStep d) (Some (pitch d))))).
  { eexists. split; [|reflexivity].
    unfold handleGridPointerMove. rewrite Hd, Hactive, Hstep. simpl.
    destruct (Z.eqb_spec (Z.of_nat s') (-1)) as [|_]; [lia|].
    destruct (Z.ltb_spec (Z.of_nat s') (Z.of_nat (startStep d))); [lia|].
    by rewrite Nat2Z.id. }
  destruct Hfirst as (m & -> & Hm). simpl.
  unfold handleGridPointerMove. simpl. rewrite Hactive. simpl.
  assert (Hstep' : pointerStep
            (with_dragState (with_melody st m) (Some (with_hasMoved d true))) e
          = Z.of_nat s') by exact Hstep.
  rewrite Hstep'.
  destruct (Z.eqb_spec (Z.of_nat s') (-1)) as [|_]; [lia|].
  destruct (Z.ltb_spec (Z.of_nat s') (Z.of_nat (startStep d))); [lia|].
  rewrite Nat2Z.id. simpl.
  pose proof (rebuild_stable (isNoteAllowed (noteMode st) (progression st) (pitch d))
                (melody st) (pitch d) (startStep d) s' Hlen Hrange) as Hstable.
  cbv beta zeta in Hstable. rewrite <- Hm in Hstable.
  change (S s' - S (startStep d)) with (s' - startStep d) in Hstable. rewrite Hstable.
  unfold with_dragState, with_melody, with_hasMoved. simpl. done.
Qed.

End Gestures.

(** ** The sequence callback and the chords *)

Lemma append_inj_l (s a b : string) : String.append s a = String.append s b -> a = b.
Proof.
  induction s as [|c s IH]; simpl; [done|]. intros [= Heq]. by apply IH.
Qed.

Lemma append_octave_inj (n r : string) :
  String.append n "4" = String.append r "4" -> n = r.
Proof.
  revert r. induction n as [|a n IH]; intros [|b r] Heq; simpl in *.
  - done.
  - injection Heq as _ Heq. destruct r; discriminate.
  - injection Heq as _ Heq. destruct n; discriminate.
  - injection Heq as -> Heq. f_equal. by apply IH.
Qed.

Lemma append_octave_ne (n r : string) : String.append n "4" <> String.append r "3".
Proof.
  revert r. induction n as [|a n IH]; intros [|b r] Heq; simpl in *.
  - discriminate.
  - injection Heq as _ Heq. destruct r; discriminate.
  - injection Heq as _ Heq. destruct n; discriminate.
  - injection Heq as _ Heq. by apply IH in Heq.
Qed.

Section Chords.
Context `{Constants}.
Import AudioService.

(** The notes [triggerChord] gives to the chord synthesizer for a chord. *)
Lemma triggerChord_calls (st : State) (barIndex : nat) :
  (triggerChord st barIndex).2
  = match chordSynth st, progression st with
    | Some _, Some prog =>
        match prog !! barIndex with
        | Some c =>
            [chordNotes
               (String.append (root c) "3"
                :: map (fun n => String.append n "4")
                     (filter (fun n => n <> root c) (notes c)))]
        | None => []
        end
    | _, _ => []
    end.
Proof.
  unfold triggerChord.
  destruct (chordSynth st), (progression st) as [prog|]; try done.
  by destruct (prog !! barIndex).
Qed.

(** Every call of one callback of the sequence, in order: the step reported
    to the view, the melody note, the chord. *)
Lemma onSequenceStep_calls (st : State) (i : nat) :
  (onSequenceStep st i).2
  = (if onStepCallback st then [stepCallback i] else [])
    ++ match js_get (melody st) i, synth st with
       | Some n, Some _ =>
           if is_pitch (Some n) then
             [melodyNote n
                (duration_loop (melody st) (length (melody st) - S i) (S i) 1)]
           else []
       | _, _ => []
       end
    ++ (if isChordEnabled st && Nat.eqb (i mod STEPS_PER_BAR) 0
        then (triggerChord st (i / STEPS_PER_BAR)).2 else []).
Proof.
  rewrite triggerChord_calls. unfold onSequenceStep, triggerChord, is_pitch. simpl.
  destruct (js_get (melody st) i) as [n|], (synth st) as [s|]; simpl;
    try destruct (negb (String.eqb n "") && negb (String.eqb n SUSTAIN_TOKEN));
    simpl;
    destruct (chordSynth st) as [cs|], (progression st) as [prog|];
    simpl; try destruct (isChordEnabled st && Nat.eqb (i mod STEPS_PER_BAR) 0);
    simpl; try destruct (prog !! (i / STEPS_PER_BAR)); simpl;
    by rewrite ?app_nil_r.
Qed.

(** [triggerChord] voices the chord of a bar as its root in octave 3, first,
    followed by the other notes of the chord in octave 4, in their order in
    the chord; the root is not repeated among them.  It adds these notes to
    what the chord synthesizer sounds and leaves the melody synthesizer alone;
    for a bar the progression has no entry for it does nothing. *)
Theorem triggerChord_voicing (st : State) (barIndex : nat)
    (cs : Tone.PolySynth) (prog : Progression) :
  chordSynth st = Some cs -> progression st = Some prog ->
  (prog !! barIndex = None -> triggerChord st barIndex = (st, [])) /\
  (forall c, prog !! barIndex = Some c ->
     exists others,
       (triggerChord st barIndex).2
       = [chordNotes (String.append (root c) "3" :: others)] /\
       chordSynth (triggerChord st barIndex).1
       = Some (cs ++ String.append (root c) "3" :: others) /\
       synth (triggerChord st barIndex).1 = synth st /\
       others
       = map (fun n => String.append n "4") (filter (fun n => n <> root c) (notes c)) /\
       (forall n, n ∈ notes c -> n <> root c -> String.append n "4" ∈ others) /\
       (forall x, x ∈ others ->
          exists n, n ∈ notes c /\ n <> root c /\ x = String.append n "4") /\
       ~ (String.append (root c) "3" ∈ others) /\
       ~ (String.append (root c) "4" ∈ others)).
Proof.
  intros Hcs Hprog. unfold triggerChord. rewrite Hcs, Hprog. split.
  - by intros ->.
  - intros c ->. eexists. split; [reflexivity|]. simpl.
    split; [done|]. split; [done|]. split; [done|].
    assert (Hin : forall x,
      x ∈ map (fun n => String.append n "4") (filter (fun n => n <> root c) (notes c)) ->
      exists n, n ∈ notes c /\ n <> root c /\ x = String.append n "4").
    { intros x Hx. apply list_elem_of_fmap in Hx as (n & -> & Hn).
      apply list_elem_of_filter in Hn as [Hne Hn]. by exists n. }
    split; [|split; [exact Hin|split]].
    + intros n Hn Hne. apply list_elem_of_fmap. exists n. split; [done|].
      by apply list_elem_of_filter.
    + intros Hx. apply Hin in Hx as (n & _ & _ & Heq).
      symmetry in Heq. by apply append_octave_ne in Heq.
    + intros Hx. apply Hin in Hx as (n & _ & Hne & Heq).
      apply Hne. symmetry. by apply append_octave_inj.
Qed.

(** In the callback of the sequence the backing chord is triggered on the
    first step of a bar only and only while chords are enabled; it is then
    the chord the progression has for the bar of the step, root in octave 3
    first, and nothing when the progression has no entry for that bar.  The
    service records the step. *)
Theorem onSequenceStep_chord (st : State) (i : nat) :
  (isChordEnabled st = false \/ i mod STEPS_PER_BAR <> 0 ->
   chord_calls (onSequenceStep st i).2 = []) /\
  (forall cs prog c,
     isChordEnabled st = true -> i mod STEPS_PER_BAR = 0 ->
     chordSynth st = Some cs -> progression st = Some prog ->
     prog !! (i / STEPS_PER_BAR) = Some c ->
     chord_calls (onSequenceStep st i).2
     = [String.append (root c) "3"
        :: map (fun n => String.append n "4")
             (filter (fun n => n <> root c) (notes c))]) /\
  (forall cs prog,
     chordSynth st = Some cs -> progression st = Some prog ->
     prog !! (i / STEPS_PER_BAR) = None ->
     chord_calls (onSequenceStep st i).2 = []) /\
  currentStepIndex (onSequenceStep st i).1 = i.
Proof.
  assert (Hnotes : forall (o : Token) (s : option Tone.PolySynth),
    chord_calls
      match o, s with
      | Some n, Some _ =>
          if is_pitch (Some n) then
            [melodyNote n
               (duration_loop (melody st) (length (melody st) - S i) (S i) 1)]
          else []
      | _, _ => []
      end = []).
  { intros [n|] [s|]; try done. by destruct (is_pitch (Some n)). }
  assert (Hcb : chord_calls (if onStepCallback st then [stepCallback i] else []) = [])
    by (by destruct (onStepCallback st)).
  split; [|split; [|split]].
  - intros Hoff. rewrite onSequenceStep_calls. unfold chord_calls in *.
    rewrite !omap_app, Hcb, Hnotes. simpl.
    destruct Hoff as [-> | Hmod]; [done|].
    apply Nat.eqb_neq in Hmod. rewrite Hmod, andb_false_r. done.
  - intros cs prog c Hon Hmod Hcs Hprog Hc. rewrite onSequenceStep_calls.
    unfold chord_calls in *. rewrite !omap_app, Hcb, Hnotes. simpl.
    rewrite Hon, Hmod. simpl. rewrite triggerChord_calls, Hcs, Hprog, Hc. done.
  - intros cs prog Hcs Hprog Hc. rewrite onSequenceStep_calls.
    unfold chord_calls in *. rewrite !omap_app, Hcb, Hnotes. simpl.
    rewrite triggerChord_calls, Hcs, Hprog, Hc. by destruct (_ && _).
  - unfold onSequenceStep. simpl.
    destruct (js_get (melody st) i) as [n|], (synth st) as [s|]; simpl;
      try destruct (negb (String.eqb n "") && negb (String.eqb n SUSTAIN_TOKEN));
      simpl; unfold triggerChord; simpl;
      destruct (chordSynth st) as [cs|], (progression st) as [prog|];
      simpl; try destruct (isChordEnabled st && Nat.eqb (i mod STEPS_PER_BAR) 0);
      simpl; try destruct (prog !! (i / STEPS_PER_BAR)); done.
Qed.

End Chords.

(** ** How long a note sounds *)

Lemma js_get_drop (timeline : Melody) (i k : nat) :
  js_get (drop i timeline) k = js_get timeline (i + k).
Proof. unfold js_get. by rewrite lookup_drop. Qed.

Lemma sustain_run_spec (timeline : Melody) :
  sustain_run timeline <= length timeline /\
  (forall k, k < sustain_run timeline -> is_sustain (js_get timeline k) = true) /\
  is_sustain (js_get timeline (sustain_run timeline)) = false.
Proof.
  induction timeline as [|slot rest (IHlen & IHrun & IHstop)]; simpl.
  - split; [lia|]. split; [intros k Hk; lia | done].
  - destruct (is_sustain slot) eqn:Hs; simpl.
    + split; [lia|]. split; [|exact IHstop].
      intros [|k] Hk; [exact Hs|]. apply IHrun. lia.
    + split; [lia|]. split; [intros k Hk; lia | exact Hs].
Qed.

Lemma sustain_run_exact (timeline : Melody) (n : nat) :
  (forall k, k < n -> is_sustain (js_get timeline k) = true) ->
  is_sustain (js_get timeline n) = false ->
  sustain_run timeline = n.
Proof.
  intros Hrun Hstop. destruct (sustain_run_spec timeline) as (_ & Hrun' & Hstop').
  destruct (lt_eq_lt_dec (sustain_run timeline) n) as [[Hlt|Heq]|Hgt]; [|done|].
  - rewrite Hrun in Hstop' by done. discriminate.
  - rewrite Hrun' in Hstop by done. discriminate.
Qed.

Section NoteDuration.
Context `{Constants}.
Import AudioService.

(** The duration the sequence callback computes for the note at step [i]
    never runs past the end of the timeline: it covers step [i] and exactly
    the sustain markers that follow it without a gap.  On a timeline of
    [TOTAL_STEPS] slots these are the steps where the piano roll resolves the
    pitch of the note, so a note sounds as long as it is drawn. *)
Theorem duration_covers_note (timeline : Melody) (i d : nat) :
  i < length timeline ->
  duration_loop timeline (length timeline - S i) (S i) 1 = d ->
  1 <= d /\ i + d <= length timeline /\
  (forall k, i < k < i + d -> is_sustain (js_get timeline k) = true) /\
  is_sustain (js_get timeline (i + d)) = false /\
  (length timeline = TOTAL_STEPS -> is_pitch (js_get timeline i) = true ->
   forall k, k < d ->
     js_get (PianoRoll.resolvedMelody timeline) (i + k) = js_get timeline i).
Proof.
  intros Hi Hd. rewrite duration_loop_sustain_run in Hd by lia.
  destruct (sustain_run_spec (drop (S i) timeline)) as (Hlen & Hrun & Hstop).
  rewrite length_drop in Hlen. rewrite js_get_drop in Hstop.
  assert (Hrun' : forall k, i < k < i + d -> is_sustain (js_get timeline k) = true).
  { intros k Hk. specialize (Hrun (k - S i) ltac:(lia)).
    rewrite js_get_drop in Hrun. by replace (S i + (k - S i)) with k in Hrun by lia. }
  split; [lia|]. split; [lia|]. split; [exact Hrun'|]. split.
  - by replace (i + d) with (S i + sustain_run (drop (S i) timeline)) by lia.
  - intros Htotal Hpitch k Hk.
    rewrite resolvedMelody_sounding by lia.
    apply (sounding_at_run timeline i (d - 1)); [done | | lia].
    intros j Hj. apply Hrun'. lia.
Qed.

End NoteDuration.

(** ** From the drag to the sound *)

Section DragToSound.
Context `{Constants}.
Import PianoRoll.

Lemma handleGridPointerMove_forward (st : State) (d : DragState) (e : PointerMove)
    (s' : nat) :
  dragState st = Some d -> isActive d = true -> pointerStep st e = Z.of_nat s' ->
  startStep d <= s' ->
  melody (handleGridPointerMove st e).1
  = clear_loop (TOTAL_STEPS - S s') (S s')
      (extend_loop (isNoteAllowed (noteMode st) (progression st) (pitch d))
         (S s' - S (startStep d)) (S (startStep d))
         (js_set (melody st) (startStep d) (Some (pitch d)))).
Proof.
  intros Hd Hactive Hstep Hle.
  unfold handleGridPointerMove. rewrite Hd, Hactive, Hstep. simpl.
  destruct (Z.eqb_spec (Z.of_nat s') (-1)) as [|_]; [lia|].
  destruct (Z.ltb_spec (Z.of_nat s') (Z.of_nat (startStep d))); [lia|].
  by rewrite Nat2Z.id.
Qed.

Lemma melody_notes_of_calls (svc : AudioService.State) (i : nat) :
  melody_notes (@AudioService.onSequenceStep H svc i).2
  = match js_get (AudioService.melody svc) i, AudioService.synth svc with
    | Some n, Some _ =>
        if is_pitch (Some n) then
          [(n, AudioService.duration_loop (AudioService.melody svc)
                 (length (AudioService.melody svc) - S i) (S i) 1)]
        else []
    | _, _ => []
    end.
Proof.
  rewrite onSequenceStep_calls. unfold melody_notes. rewrite !omap_app.
  assert (Hcb : omap melody_note_of
            (if AudioService.onStepCallback svc then [AudioService.stepCallback i] else [])
          = []) by (by destruct (AudioService.onStepCallback svc)).
  assert (Hchord : omap melody_note_of
            (if AudioService.isChordEnabled svc && Nat.eqb (i mod STEPS_PER_BAR) 0
             then (AudioService.triggerChord svc (i / STEPS_PER_BAR)).2 else [])
          = []).
  { destruct (_ && _); [apply triggerChord_no_melody | done]. }
  rewrite Hcb, Hchord, app_nil_r. simpl.
  destruct (js_get (AudioService.melody svc) i) as [n|], (AudioService.synth svc);
    try done.
  by destruct (is_pitch (Some n)).
Qed.

(** Dragging a note of pitch [p] from its start step to step [s'], over steps
    where [p] is allowed, leaves a timeline in which [p] resolves on every
    step from the start to [s'] and the note ends there; once the service has
    that timeline, the callback of the start step triggers [p] for exactly
    [s' - startStep + 1] steps. *)
Theorem drag_sets_duration (st : State) (d : DragState) (e : PointerMove) (s' : nat) :
  dragState st = Some d -> isActive d = true -> pointerStep st e = Z.of_nat s' ->
  length (melody st) = TOTAL_STEPS -> startStep d <= s' < TOTAL_STEPS ->
  is_pitch (Some (pitch d)) = true ->
  (forall k, startStep d < k <= s' ->
     isNoteAllowed (noteMode st) (progression st) (pitch d) k = true) ->
  (forall k, startStep d <= k <= s' ->
     js_get (resolvedMelody (melody (handleGridPointerMove st e).1)) k = Some (pitch d)) /\
  is_sustain (js_get (melody (handleGridPointerMove st e).1) (S s')) = false /\
  (forall svc voices, AudioService.synth svc = Some voices ->
     melody_notes
       (AudioService.onSequenceStep
          (AudioService.updateMelody svc (melody (handleGridPointerMove st e).1))
          (startStep d)).2
     = [(pitch d, S (s' - startStep d))]).
Proof.
  intros Hd Hactive Hstep Hlen [Hle Hlt] Hp Hallowed.
  rewrite (handleGridPointerMove_forward st d e s') by done.
  destruct (rebuild_spec (isNoteAllowed (noteMode st) (progression st) (pitch d))
              (melody st) (pitch d) (startStep d) s' Hle)
    as (Hstart & Hwritten & _ & Hcleared & Hafter & _ & Hlength).
  specialize (Hlength Hlen Hlt).
  set (m := clear_loop _ _ _) in *.
  assert (Hrun : forall k, startStep d < k <= s' -> is_sustain (js_get m k) = true).
  { intros k Hk. rewrite Hwritten; [done | done |].
    intros j Hj. apply Hallowed. lia. }
  assert (Hend : is_sustain (js_get m (S s')) = false).
  { destruct (decide (S s' < TOTAL_STEPS)) as [Hin|Hout];
      [|by rewrite js_get_ge by lia].
    destruct (is_sustain (js_get (melody st) (S s'))) eqn:Hnext.
    - rewrite Hcleared; [done | lia |].
      intros k Hk. by replace k with (S s') by lia.
    - rewrite Hafter; [done | lia |]. exists (S s'). split; [lia | done]. }
  split; [|split; [exact Hend|]].
  - intros k Hk. rewrite resolvedMelody_sounding by lia.
    replace k with (startStep d + (k - startStep d)) by lia.
    rewrite (sounding_at_run m (startStep d) (s' - startStep d)).
    + done.
    + by rewrite Hstart.
    + intros j Hj. apply Hrun. lia.
    + lia.
  - intros svc voices Hsynth. rewrite melody_notes_of_calls. simpl.
    rewrite Hstart, Hsynth, Hp.
    rewrite duration_loop_sustain_run by lia.
    rewrite (sustain_run_exact (drop (S (startStep d)) m) (s' - startStep d)).
    + done.
    + intros k Hk. rewrite js_get_drop. apply Hrun. lia.
    + rewrite js_get_drop. by replace (S (startStep d) + (s' - startStep d)) with (S s') by lia.
Qed.

End DragToSound.

(** ** Switching the chords on and off *)

Section ChordSwitch.
Context `{Constants}.
Import AudioService.


End ChordSwitch.

(** ** The transport buttons *)

Section Buttons.
Context `{Constants}.
Import MonoMelody.

Lemma onSequenceStep_frame (svc : AudioService.State) (i : nat) :
  AudioService.Transport_state (AudioService.onSequenceStep svc i).1
  = AudioService.Transport_state svc /\
  AudioService.isInitialized (AudioService.onSequenceStep svc i).1
  = AudioService.isInitialized svc /\
  (is_Some (AudioService.synth svc) ->
   is_Some (AudioService.synth (AudioService.onSequenceStep svc i).1)) /\
  AudioService.melody (AudioService.onSequenceStep svc i).1 = AudioService.melody svc.
Proof.
  unfold AudioService.onSequenceStep, AudioService.triggerChord. simpl.
  destruct (js_get (AudioService.melody svc) i) as [n|],
           (AudioService.synth svc) as [s|] eqn:Hsynth;
    simpl;
    try destruct (negb (String.eqb n "") && negb (String.eqb n SUSTAIN_TOKEN));
    simpl;
    destruct (AudioService.chordSynth svc) as [cs|],
             (AudioService.progression svc) as [prog|];
    simpl;
    try destruct (AudioService.isChordEnabled svc && Nat.eqb (i mod STEPS_PER_BAR) 0);
    simpl; try destruct (prog !! (i / STEPS_PER_BAR)); simpl;
    rewrite ?Hsynth; repeat split; (done || by intros [? ?] || eauto).
Qed.

(** What the buttons keep: the view shows "playing" exactly when the transport
    runs, and then the service is initialized, with its melody synthesizer. *)
Lemma handle_in_step (st : State) (ev : Event) :
  (isPlaying st = true <->
   AudioService.Transport_state (audioService st) = Tone.started) ->
  (AudioService.isInitialized (audioService st) = true ->
   is_Some (AudioService.synth (audioService st))) ->
  (isPlaying st = true -> AudioService.isInitialized (audioService st) = true) ->
  (isPlaying (handle st ev) = true <->
   AudioService.Transport_state (audioService (handle st ev)) = Tone.started) /\
  (AudioService.isInitialized (audioService (handle st ev)) = true ->
   is_Some (AudioService.synth (audioService (handle st ev)))) /\
  (isPlaying (handle st ev) = true ->
   AudioService.isInitialized (audioService (handle st ev)) = true).
Proof.
  intros Hsync Hsynth Hinit. destruct ev as [| |i]; simpl.
  - unfold handlePlayPause.
    destruct (isPlaying st) eqn:Hplaying; simpl.
    + pose proof (proj1 Hsync eq_refl) as Hstarted.
      pose proof (Hinit eq_refl) as Hinitd.
      unfold AudioService.init. rewrite Hinitd. simpl. rewrite Hstarted. simpl.
      split; [split; discriminate|]. split; [|discriminate].
      intros _. destruct (Hsynth Hinitd) as [s ->]. by eexists.
    + unfold AudioService.play, AudioService.init.
      destruct (AudioService.isInitialized (audioService st)) eqn:Hinitd; simpl;
        rewrite ?Hinitd; simpl.
      * split; [by destruct (AudioService.Transport_state _)|]. split; [|done].
        intros _. by apply Hsynth.
      * split; [by destruct (AudioService.Transport_state _)|]. split; [|done].
        intros _. by eexists.
  - split; [split; discriminate|]. split; [|discriminate].
    intros Hinitd. destruct (Hsynth Hinitd) as [s Hs].
    unfold AudioService.stop, AudioService.releaseAll. simpl. rewrite Hs. by eexists.
  - destruct (onSequenceStep_frame (audioService st) i) as (Ht & Hi & Hs & _).
    rewrite Ht, Hi. split; [done|]. split; [|done].
    intros Hinitd. apply Hs. by apply Hsynth.
Qed.

(** From the view as it mounts, after any presses of the play/pause and stop
    buttons and any callbacks of the sequence in between: the play button
    shows "playing" exactly when the transport runs; while it does, the
    service is initialized and has its melody synthesizer, so the callback
    can sound notes; and a press of stop then leaves the transport stopped,
    no step shown and nothing sounding. *)
Theorem buttons_follow_transport (evs : list Event) :
  (isPlaying (press_all mounted evs) = true <->
   AudioService.Transport_state (audioService (press_all mounted evs)) = Tone.started) /\
  (isPlaying (press_all mounted evs) = true ->
   AudioService.isInitialized (audioService (press_all mounted evs)) = true /\
   is_Some (AudioService.synth (audioService (press_all mounted evs)))) /\
  (isPlaying (press_all mounted (evs ++ [StopButton])) = false /\
   currentStep (press_all mounted (evs ++ [StopButton])) = (-1)%Z /\
   AudioService.Transport_state (audioService (press_all mounted (evs ++ [StopButton])))
   = Tone.stopped /\
   AudioService.sounding (audioService (press_all mounted (evs ++ [StopButton]))) = []).
Proof.
  assert (Hall : forall st,
    (isPlaying st = true <->
     AudioService.Transport_state (audioService st) = Tone.started) ->
    (AudioService.isInitialized (audioService st) = true ->
     is_Some (AudioService.synth (audioService st))) ->
    (isPlaying st = true -> AudioService.isInitialized (audioService st) = true) ->
    (isPlaying (press_all st evs) = true <->
     AudioService.Transport_state (audioService (press_all st evs)) = Tone.started) /\
    (AudioService.isInitialized (audioService (press_all st evs)) = true ->
     is_Some (AudioService.synth (audioService (press_all st evs)))) /\
    (isPlaying (press_all st evs) = true ->
     AudioService.isInitialized (audioService (press_all st evs)) = true)).
  { unfold press_all. induction evs as [|ev evs IH]; intros st Hsync Hsynth Hinit; simpl.
    - done.
    - destruct (handle_in_step st ev Hsync Hsynth Hinit) as (Hsync' & Hsynth' & Hinit').
      by apply IH. }
  destruct (Hall mounted) as (Hsync & Hsynth & Hinit).
  { split; discriminate. }
  { discriminate. }
  { discriminate. }
  split; [exact Hsync|]. split.
  - intros Hplaying. split; [by apply Hinit|]. apply Hsynth. by apply Hinit.
  - unfold press_all. rewrite foldl_app. simpl.
    split; [done|]. split; [done|]. split; [done|].
    apply releaseAll_sounding.
Qed.

End Buttons.

(** ** Changing a chord, clearing the melody *)

Lemma js_get_replicate_None (n i : nat) : js_get (replicate n None) i = None.
Proof.
  unfold js_get. destruct (replicate n None !! i) as [t|] eqn:Ht; [|done].
  by apply lookup_replicate_1 in Ht as [-> _].
Qed.

Section ViewEdits.
Context `{Constants}.
Import PianoRoll.

(** Choosing another chord for one bar keeps the progression as long as it
    was and changes which pitches are allowed in the steps of that bar only:
    there, in chord mode, the allowed pitches are the notes of the new chord;
    in every other bar, and in the other modes, nothing changes. *)
Theorem onUpdateProgression_local (progression : Progression) (idx : nat) (c : Chord) :
  idx < length progression ->
  length (MonoMelody.onUpdateProgression progression idx c) = length progression /\
  (forall noteMode p step, step / STEPS_PER_BAR <> idx ->
     isNoteAllowed noteMode (MonoMelody.onUpdateProgression progression idx c) p step
     = isNoteAllowed noteMode progression p step) /\
  (forall p step, step / STEPS_PER_BAR = idx ->
     (isNoteAllowed chord (MonoMelody.onUpdateProgression progression idx c) p step = true
      <-> strip_digits p ∈ notes c)) /\
  (forall noteMode p step, noteMode <> chord ->
     isNoteAllowed noteMode (MonoMelody.onUpdateProgression progression idx c) p step
     = isNoteAllowed noteMode progression p step).
Proof.
  intros Hidx. unfold MonoMelody.onUpdateProgression.
  split; [apply length_insert|]. split; [|split].
  - intros noteMode p step Hbar. destruct noteMode; simpl; try done.
    by rewrite list_lookup_insert_ne.
  - intros p step Hbar. simpl. rewrite Hbar, list_lookup_insert_eq by done.
    apply includes_spec.
  - intros noteMode p step Hmode. by destruct noteMode.
Qed.

(** Clearing sets a timeline of [TOTAL_STEPS] empty slots: it resolves to
    nothing at every step, the handlers' invariant holds on it, and once the
    service has it no callback of the sequence triggers a melody note. *)
Theorem handleClear_silences (st : State) :
  melody st = MonoMelody.handleClear -> dragState st = None ->
  resolvedMelody (melody st) = replicate TOTAL_STEPS None /\
  view_invariant st /\
  (forall svc i,
     melody_notes
       (AudioService.onSequenceStep (AudioService.updateMelody svc (melody st)) i).2
     = []).
Proof.
  intros Hclear Hidle. rewrite Hclear. unfold MonoMelody.handleClear.
  split; [|split].
  - apply js_get_ext; [by rewrite resolvedMelody_length, length_replicate|].
    rewrite resolvedMelody_length. intros i Hi.
    rewrite resolvedMelody_sounding, js_get_replicate_None by done.
    destruct i; simpl; by rewrite js_get_replicate_None.
  - split; [by rewrite Hclear; apply length_replicate|]. split.
    + intros i Hi. rewrite Hclear in Hi. unfold MonoMelody.handleClear in Hi.
      by rewrite js_get_replicate_None in Hi.
    + intros d Hd. congruence.
  - intros svc i. rewrite melody_notes_of_calls. simpl.
    by rewrite js_get_replicate_None.
Qed.

End ViewEdits.

(** ** The properties above, on the documented timelines *)

Lemma resolvedMelody_note_run_witness :
  2 + 2 < @TOTAL_STEPS one_bar_constants /\
  is_pitch (js_get scenarioA_timeline 2) = true /\
  (forall k, 2 < k <= 2 + 2 -> is_sustain (js_get scenarioA_timeline k) = true) /\
  (forall k, k <= 2 ->
     js_get (@PianoRoll.resolvedMelody one_bar_constants scenarioA_timeline) (2 + k)
     = js_get scenarioA_timeline 2).
Proof.
  assert (Hend : 2 + 2 < @TOTAL_STEPS one_bar_constants) by (vm_compute; lia).
  assert (Hrun : forall k, 2 < k <= 2 + 2 ->
            is_sustain (js_get scenarioA_timeline k) = true).
  { intros k Hk. assert (k = 3 \/ k = 4) as [-> | ->] by lia; reflexivity. }
  split; [exact Hend|]. split; [reflexivity|]. split; [exact Hrun|].
  exact (proj1 (@resolvedMelody_note_run one_bar_constants scenarioA_timeline 2 2
                  Hend eq_refl Hrun)).
Defined.

Lemma pointerDown_grabs_head_witness :
  PianoRoll.target (pointerDownOn 4 "E4")
  = Some {| PianoRoll.data_step := 4; PianoRoll.data_pitch := "E4" |} /\
  @PianoRoll.isNoteAllowed one_bar_constants chord DEFAULT_PROGRESSION "E4" 4 = true /\
  js_get (@PianoRoll.resolvedMelody one_bar_constants scenarioC_timeline) 4 = Some "E4" /\
  (@PianoRoll.handleGridPointerDown one_bar_constants
     (idle_view chord scenarioC_timeline) (pointerDownOn 4 "E4")).2 = [].
Proof.
  split; [reflexivity|]. split; [reflexivity|]. split; [reflexivity|].
  exact (proj1 (@pointerDown_grabs_head one_bar_constants
                  (idle_view chord scenarioC_timeline) (pointerDownOn 4 "E4")
                  {| PianoRoll.data_step := 4; PianoRoll.data_pitch := "E4" |}
                  eq_refl eq_refl eq_refl)).
Defined.

Lemma cell_head_or_tail_witness :
  is_pitch (Some "C4") = true /\
  @PianoRoll.cell_isActive one_bar_constants scenarioA_timeline "C4" 3 = true /\
  @PianoRoll.cell_isHead one_bar_constants scenarioA_timeline "C4" 3
  = negb (@PianoRoll.cell_isTail one_bar_constants scenarioA_timeline "C4" 3).
Proof.
  split; [reflexivity|]. split; [reflexivity|].
  exact (proj1 (@cell_head_or_tail one_bar_constants scenarioA_timeline "C4" 3 eq_refl)
           eq_refl).
Defined.

Lemma empty_view_invariant :
  @view_invariant one_bar_constants
    (idle_view chromatic (@MonoMelody.handleClear one_bar_constants)).
Proof.
  split; [reflexivity|]. split.
  - intros i Hi. simpl in Hi. unfold MonoMelody.handleClear in Hi.
    by rewrite js_get_replicate_None in Hi.
  - intros d Hd. discriminate.
Defined.

Lemma E4_rendered (step : nat) :
  step < @TOTAL_STEPS one_bar_constants ->
  @rendered_cell one_bar_constants
    {| PianoRoll.data_step := step; PianoRoll.data_pitch := "E4" |}.
Proof.
  intros Hstep. split; [exact Hstep|]. simpl. unfold PITCH_ROWS.
  do 7 apply list_elem_of_further. apply list_elem_of_here.
Defined.

Lemma draw_gesture_dom : Forall (@dom_event one_bar_constants) draw_gesture.
Proof.
  unfold draw_gesture. apply Forall_cons. split.
  { intros c [= <-]. apply E4_rendered. vm_compute. lia. }
  apply Forall_cons. split.
  { intros c Hc. discriminate. }
  apply Forall_cons. split; [exact I | constructor].
Defined.

Lemma handlers_keep_invariant_witness :
  @view_invariant one_bar_constants
    (idle_view chromatic (@MonoMelody.handleClear one_bar_constants)) /\
  Forall (@dom_event one_bar_constants) draw_gesture /\
  @view_invariant one_bar_constants
    (@PianoRoll.run one_bar_constants
       (idle_view chromatic (@MonoMelody.handleClear one_bar_constants)) draw_gesture).1.
Proof.
  split; [exact empty_view_invariant|]. split; [exact draw_gesture_dom|].
  exact (proj2 (@handlers_keep_invariant one_bar_constants _ empty_view_invariant)
           draw_gesture draw_gesture_dom).
Defined.

Lemma run_from_empty_headed_witness :
  PianoRoll.melody (idle_view chromatic (@MonoMelody.handleClear one_bar_constants))
  = replicate (@TOTAL_STEPS one_bar_constants) None /\
  PianoRoll.dragState (idle_view chromatic (@MonoMelody.handleClear one_bar_constants))
  = None /\
  Forall (@dom_event one_bar_constants) draw_gesture /\
  length (PianoRoll.melody
            (@PianoRoll.run one_bar_constants
               (idle_view chromatic (@MonoMelody.handleClear one_bar_constants))
               draw_gesture).1)
  = @TOTAL_STEPS one_bar_constants.
Proof.
  split; [reflexivity|]. split; [reflexivity|]. split; [exact draw_gesture_dom|].
  exact (proj1 (@run_from_empty_headed one_bar_constants
                  (idle_view chromatic (@MonoMelody.handleClear one_bar_constants))
                  draw_gesture eq_refl eq_refl draw_gesture_dom)).
Defined.


Lemma pointerMove_repeated_witness :
  PianoRoll.dragState (grabbed_view chord) = Some grabbed_drag /\
  PianoRoll.isActive grabbed_drag = true /\
  @PianoRoll.pointerStep one_bar_constants (grabbed_view chord) (pointerMoveTo 3)
  = Z.of_nat 3 /\
  length (PianoRoll.melody (grabbed_view chord)) = @TOTAL_STEPS one_bar_constants /\
  PianoRoll.startStep grabbed_drag <= 3 < @TOTAL_STEPS one_bar_constants /\
  @PianoRoll.handleGridPointerMove one_bar_constants
    (@PianoRoll.handleGridPointerMove one_bar_constants
       (grabbed_view chord) (pointerMoveTo 3)).1 (pointerMoveTo 3)
  = ((@PianoRoll.handleGridPointerMove one_bar_constants
        (grabbed_view chord) (pointerMoveTo 3)).1,
     [PianoRoll.onSetMelody
        (PianoRoll.melody
           (@PianoRoll.handleGridPointerMove one_bar_constants
              (grabbed_view chord) (pointerMoveTo 3)).1)]).
Proof.
  assert (Hrange : PianoRoll.startStep grabbed_drag <= 3 < @TOTAL_STEPS one_bar_constants)
    by (vm_compute; lia).
  split; [reflexivity|]. split; [reflexivity|]. split; [reflexivity|].
  split; [reflexivity|]. split; [exact Hrange|].
  exact (@pointerMove_repeated one_bar_constants (grabbed_view chord) grabbed_drag
           (pointerMoveTo 3) 3 eq_refl eq_refl eq_refl eq_refl Hrange).
Defined.

Lemma triggerChord_voicing_witness :
  AudioService.chordSynth loaded_service = Some [] /\
  AudioService.progression loaded_service = Some DEFAULT_PROGRESSION /\
  DEFAULT_PROGRESSION !! 3 = Some chord_V /\
  (AudioService.triggerChord loaded_service 3).2
  = [AudioService.chordNotes ["G3"; "B4"; "D4"]].
Proof.
  split; [reflexivity|]. split; [reflexivity|]. split; [reflexivity|].
  destruct (proj2 (triggerChord_voicing loaded_service 3 [] DEFAULT_PROGRESSION
                     eq_refl eq_refl) chord_V eq_refl)
    as (others & Hcalls & _ & _ & Hothers & _).
  rewrite Hcalls, Hothers. reflexivity.
Defined.

Lemma onSequenceStep_chord_witness :
  AudioService.isChordEnabled loaded_service = true /\
  0 mod @STEPS_PER_BAR one_bar_constants = 0 /\
  AudioService.chordSynth loaded_service = Some [] /\
  AudioService.progression loaded_service = Some DEFAULT_PROGRESSION /\
  DEFAULT_PROGRESSION !! (0 / @STEPS_PER_BAR one_bar_constants) = Some chord_I /\
  chord_calls (@AudioService.onSequenceStep one_bar_constants loaded_service 0).2
  = [["C3"; "E4"; "G4"]].
Proof.
  split; [reflexivity|]. split; [reflexivity|]. split; [reflexivity|].
  split; [reflexivity|]. split; [reflexivity|].
  exact (proj1 (proj2 (@onSequenceStep_chord one_bar_constants loaded_service 0))
           [] DEFAULT_PROGRESSION chord_I eq_refl eq_refl eq_refl eq_refl eq_refl).
Defined.

Lemma duration_covers_note_witness :
  2 < length scenarioA_timeline /\
  AudioService.duration_loop scenarioA_timeline (length scenarioA_timeline - 3) 3 1 = 3 /\
  2 + 3 <= length scenarioA_timeline /\
  is_sustain (js_get scenarioA_timeline (2 + 3)) = false.
Proof.
  assert (Hi : 2 < length scenarioA_timeline) by (vm_compute; lia).
  split; [exact Hi|]. split; [reflexivity|].
  pose proof (@duration_covers_note one_bar_constants scenarioA_timeline 2 3 Hi eq_refl)
    as (_ & Hend & _ & Hstop & _).
  split; [exact Hend | exact Hstop].
Defined.

Lemma drag_sets_duration_witness :
  PianoRoll.dragState (grabbed_view chromatic) = Some grabbed_drag /\
  PianoRoll.isActive grabbed_drag = true /\
  @PianoRoll.pointerStep one_bar_constants (grabbed_view chromatic) (pointerMoveTo 6)
  = Z.of_nat 6 /\
  length (PianoRoll.melody (grabbed_view chromatic)) = @TOTAL_STEPS one_bar_constants /\
  PianoRoll.startStep grabbed_drag <= 6 < @TOTAL_STEPS one_bar_constants /\
  is_pitch (Some (PianoRoll.pitch grabbed_drag)) = true /\
  AudioService.synth loaded_service = Some [] /\
  melody_notes
    (@AudioService.onSequenceStep one_bar_constants
       (AudioService.updateMelody loaded_service
          (PianoRoll.melody
             (@PianoRoll.handleGridPointerMove one_bar_constants
                (grabbed_view chromatic) (pointerMoveTo 6)).1))
       (PianoRoll.startStep grabbed_drag)).2
  = [(PianoRoll.pitch grabbed_drag, S (6 - PianoRoll.startStep grabbed_drag))].
Proof.
  assert (Hrange : PianoRoll.startStep grabbed_drag <= 6 < @TOTAL_STEPS one_bar_constants)
    by (vm_compute; lia).
  split; [reflexivity|]. split; [reflexivity|]. split; [reflexivity|].
  split; [reflexivity|]. split; [exact Hrange|]. split; [reflexivity|].
  split; [reflexivity|].
  exact (proj2 (proj2 (@drag_sets_duration one_bar_constants (grabbed_view chromatic)
                         grabbed_drag (pointerMoveTo 6) 6 eq_refl eq_refl eq_refl eq_refl
                         Hrange eq_refl (fun k _ => eq_refl)))
           loaded_service [] eq_refl).
Defined.


Lemma buttons_follow_transport_witness :
  MonoMelody.isPlaying
    (@press_all one_bar_constants (@MonoMelody.mounted one_bar_constants)
       [MonoMelody.PlayPauseButton; MonoMelody.SequenceStep 0]) = true /\
  AudioService.isInitialized
    (MonoMelody.audioService
       (@press_all one_bar_constants (@MonoMelody.mounted one_bar_constants)
          [MonoMelody.PlayPauseButton; MonoMelody.SequenceStep 0])) = true.
Proof.
  split; [reflexivity|].
  exact (proj1 (proj1 (proj2 (@buttons_follow_transport one_bar_constants
                                [MonoMelody.PlayPauseButton; MonoMelody.SequenceStep 0]))
                  eq_refl)).
Defined.

Lemma onUpdateProgression_local_witness :
  1 < length DEFAULT_PROGRESSION /\
  10 / @STEPS_PER_BAR source_constants = 1 /\
  (@PianoRoll.isNoteAllowed source_constants chord
     (MonoMelody.onUpdateProgression DEFAULT_PROGRESSION 1 chord_V) "B3" 10 = true
   <-> strip_digits "B3" ∈ notes chord_V).
Proof.
  assert (Hidx : 1 < length DEFAULT_PROGRESSION) by (vm_compute; lia).
  split; [exact Hidx|]. split; [reflexivity|].
  exact (proj1 (proj2 (proj2
    (@onUpdateProgression_local source_constants DEFAULT_PROGRESSION 1 chord_V Hidx)))
    "B3" 10 eq_refl).
Defined.

Lemma handleClear_silences_witness :
  PianoRoll.melody (idle_view chord (@MonoMelody.handleClear source_constants))
  = @MonoMelody.handleClear source_constants /\
  PianoRoll.dragState (idle_view chord (@MonoMelody.handleClear source_constants)) = None /\
  @PianoRoll.resolvedMelody source_constants
    (PianoRoll.melody (idle_view chord (@MonoMelody.handleClear source_constants)))
  = replicate (@TOTAL_STEPS source_constants) None.
Proof.
  split; [reflexivity|]. split; [reflexivity|].
  exact (proj1 (@handleClear_silences source_constants
                  (idle_view chord (@MonoMelody.handleClear source_constants))
                  eq_refl eq_refl)).
Defined.
